(** * ZEO.zrpc.trigger: the select-trigger of ZEO's asyncore loop

    A shallow embedding of [src/ZEO/zrpc/trigger.py] and the properties of
    its wake/drain protocol.

    The module defines one class [trigger] twice, a pipe flavour for posix
    and a loopback-socket flavour for the other platforms.  The two share
    [pull_trigger] and [handle_read] line for line; they differ in the
    constructor, in the call that writes the wakeup byte and in [close],
    which only the pipe flavour overrides.

    What the Python code does to the object, to the operating system and to
    standard output is threaded through one state record, and every
    primitive step also leaves an event in a log, so that the order of the
    steps can be stated.  *)

From Stdlib Require Import List Bool ZArith NArith Lia.
Import ListNotations.

Set Implicit Arguments.

(** ** Exceptions *)

(** The exception classes the module distinguishes.  [socket.error] is the
    only class named in an [except] clause; [RuntimeError] is what the
    loopback constructor raises; [AppError] stands for whatever a thunk may
    raise. *)
Inductive exn : Type :=
| SocketError
| OSError
| RuntimeError
| AppError (code : nat).

(** [except socket.error:] *)
Definition is_socket_error (e : exn) : bool :=
  match e with
  | SocketError => true
  | _ => false
  end.

(** The bare [except:] of the thunk loop. *)
Definition any_error (e : exn) : bool := true.

(** ** The two flavours and their handles *)

Inductive flavour : Type := Pipe | Loopback.

(** The two ends of the signal channel: [r], handed to the asyncore base
    class, and [w], kept in [self.trigger]. *)
Inductive handle : Type := Rd | Wr.

Definition handle_eqb (a b : handle) : bool :=
  match a, b with
  | Rd, Rd | Wr, Wr => true
  | _, _ => false
  end.

(** A call returns, raises, or never comes back because it waits for a lock
    that its own thread holds.  State changes made before a raise stay. *)
Inductive outcome (A : Type) : Type :=
| Ret (a : A)
| Raise (e : exn)
| Block.

Arguments Raise {A} e.
Arguments Block {A}.

Section Trigger.

(** The state the thunks work on.  The application-level work of a thunk is
    outside the module: a thunk is a callable that changes this state and
    either returns or raises.  A thunk that calls back into the trigger it
    is queued on is not covered; [pull_trigger_waits] below says what the
    first step of such a call meets during a drain. *)
Variable World : Type.

(** A value passed to [pull_trigger]: its truth value, which [if thunk:]
    tests, and what calling it does. *)
Record thunk : Type := Thunk {
  truth : bool;
  call : World -> World * option exn
}.

(** [if thunk:] on the optional argument; the default [None] is false. *)
Definition truthy (arg : option thunk) : bool :=
  match arg with
  | None => false
  | Some t => truth t
  end.

(** ** Events *)

Inductive event : Type :=
| Acquire                       (* self.lock.acquire() returned *)
| Release                       (* self.lock.release() *)
| Append (t : thunk)            (* self.thunks.append(thunk) *)
| Wrote (n : N)                 (* n bytes written to the write end *)
| Recv (n : N)                  (* self.recv(8192) returned n bytes *)
| RecvFailed (e : exn)          (* self.recv(8192) raised e *)
| WriteFailed (e : exn)         (* the write raised e *)
| Invoke (t : thunk)            (* thunk() entered *)
| Report (e : exn)              (* the 'exception in trigger thunk' line *)
| Clear                         (* self.thunks = [] *)
| DelChannel                    (* self.del_channel() *)
| CloseHandle (h : handle)      (* the handle was released *)
| CloseFailed (h : handle).     (* os.close on a handle already released *)

(** ** State *)

Record state : Type := State {
  kind : flavour;
  lock : bool;                  (* is self.lock held *)
  thunks : list thunk;          (* self.thunks *)
  _closed : bool;               (* self._closed, pipe flavour *)
  _fds : list handle;           (* self._fds, pipe flavour *)
  r_open : bool;                (* the read end is still allocated *)
  w_open : bool;                (* the write end is still allocated *)
  pending : N;                  (* bytes written and not yet read *)
  rd_fault : option exn;        (* what a read of the channel raises, if anything *)
  wr_fault : option exn;        (* what a write to the channel raises, if anything *)
  world : World;
  trace : list event
}.

Definition set_lock (b : bool) (s : state) : state :=
  State (kind s) b (thunks s) (_closed s) (_fds s) (r_open s) (w_open s)
        (pending s) (rd_fault s) (wr_fault s) (world s) (trace s).

Definition set_thunks (l : list thunk) (s : state) : state :=
  State (kind s) (lock s) l (_closed s) (_fds s) (r_open s) (w_open s)
        (pending s) (rd_fault s) (wr_fault s) (world s) (trace s).

Definition set_closed (b : bool) (s : state) : state :=
  State (kind s) (lock s) (thunks s) b (_fds s) (r_open s) (w_open s)
        (pending s) (rd_fault s) (wr_fault s) (world s) (trace s).

Definition set_fds (l : list handle) (s : state) : state :=
  State (kind s) (lock s) (thunks s) (_closed s) l (r_open s) (w_open s)
        (pending s) (rd_fault s) (wr_fault s) (world s) (trace s).

Definition set_open (h : handle) (b : bool) (s : state) : state :=
  match h with
  | Rd => State (kind s) (lock s) (thunks s) (_closed s) (_fds s) b (w_open s)
                (pending s) (rd_fault s) (wr_fault s) (world s) (trace s)
  | Wr => State (kind s) (lock s) (thunks s) (_closed s) (_fds s) (r_open s) b
                (pending s) (rd_fault s) (wr_fault s) (world s) (trace s)
  end.

Definition set_pending (n : N) (s : state) : state :=
  State (kind s) (lock s) (thunks s) (_closed s) (_fds s) (r_open s) (w_open s)
        n (rd_fault s) (wr_fault s) (world s) (trace s).

Definition set_world (w : World) (s : state) : state :=
  State (kind s) (lock s) (thunks s) (_closed s) (_fds s) (r_open s) (w_open s)
        (pending s) (rd_fault s) (wr_fault s) w (trace s).

Definition emit (e : event) (s : state) : state :=
  State (kind s) (lock s) (thunks s) (_closed s) (_fds s) (r_open s) (w_open s)
        (pending s) (rd_fault s) (wr_fault s) (world s) (trace s ++ [e]).

Definition set_rd_fault (f : option exn) (s : state) : state :=
  State (kind s) (lock s) (thunks s) (_closed s) (_fds s) (r_open s) (w_open s)
        (pending s) f (wr_fault s) (world s) (trace s).

Definition set_wr_fault (f : option exn) (s : state) : state :=
  State (kind s) (lock s) (thunks s) (_closed s) (_fds s) (r_open s) (w_open s)
        (pending s) (rd_fault s) f (world s) (trace s).

(** The events logged on the way from [s] to [s']. *)
Definition since (s s' : state) : list event :=
  skipn (length (trace s)) (trace s').

Definition is_open (h : handle) (s : state) : bool :=
  match h with
  | Rd => r_open s
  | Wr => w_open s
  end.

(** ** Control: return, raise, block *)

Definition M (A : Type) : Type := state -> outcome A * state.

Definition ret {A} (a : A) : M A := fun s => (Ret a, s).

Definition raise {A} (e : exn) : M A := fun s => (Raise e, s).

Definition bind {A B} (m : M A) (k : A -> M B) : M B :=
  fun s =>
    match m s with
    | (Ret a, s1) => k a s1
    | (Raise e, s1) => (Raise e, s1)
    | (Block, s1) => (Block, s1)
    end.

(** [try: body finally: fin] *)
Definition try_finally {A} (body : M A) (fin : M unit) : M A :=
  fun s =>
    match body s with
    | (Block, s1) => (Block, s1)
    | (r, s1) =>
        match fin s1 with
        | (Ret _, s2) => (r, s2)
        | (Raise e, s2) => (Raise e, s2)
        | (Block, s2) => (Block, s2)
        end
    end.

(** [try: body except <class>: handler] *)
Definition try_except {A} (body : M A) (catches : exn -> bool)
    (handler : exn -> M A) : M A :=
  fun s =>
    match body s with
    | (Raise e, s1) => if catches e then handler e s1 else (Raise e, s1)
    | other => other
    end.

(** [for x in l: body] *)
Fixpoint for_each {A} (l : list A) (body : A -> M unit) : M unit :=
  match l with
  | [] => ret tt
  | x :: rest => bind (body x) (fun _ => for_each rest body)
  end.

Declare Scope py_scope.
Delimit Scope py_scope with py.

Notation "x <- m ;; k" := (bind m (fun x => k))
  (at level 100, m at next level, right associativity) : py_scope.
Notation "m ;; k" := (bind m (fun _ => k))
  (at level 100, right associativity) : py_scope.

Local Open Scope py_scope.

(** ** Primitive steps *)

(** [self.lock.acquire()]: the lock of [thread.allocate_lock()] is not
    reentrant, so acquiring it while it is held waits. *)
Definition lock_acquire : M unit :=
  fun s => if lock s then (Block, s) else (Ret tt, emit Acquire (set_lock true s)).

(** [self.lock.release()] *)
Definition lock_release : M unit :=
  fun s => (Ret tt, emit Release (set_lock false s)).

(** [self.thunks.append(thunk)] *)
Definition thunks_append (t : thunk) : M unit :=
  fun s => (Ret tt, emit (Append t) (set_thunks (thunks s ++ [t]) s)).

(** [self.thunks = []] *)
Definition thunks_clear : M unit :=
  fun s => (Ret tt, emit Clear (set_thunks [] s)).

(** [os.write(self.trigger, 'x')] in the pipe flavour and
    [self.trigger.send('x')] in the loopback flavour: one byte goes into the
    channel, unless the write raises. *)
Definition write_x : M unit :=
  fun s =>
    match wr_fault s with
    | Some e => (Raise e, emit (WriteFailed e) s)
    | None => (Ret tt, emit (Wrote 1) (set_pending (pending s + 1) s))
    end.

(** [self.recv(bufsize)]: one read of at most [bufsize] bytes, which takes
    what is there up to that size, unless the read raises.  The result is
    the number of bytes read; all bytes are ['x'].  Whether a read raises is
    the environment's matter and is given by [rd_fault]; so is what asyncore
    does on its own when a read comes back empty. *)
Definition recv (bufsize : N) : M N :=
  fun s =>
    match rd_fault s with
    | Some e => (Raise e, emit (RecvFailed e) s)
    | None =>
        let n := N.min bufsize (pending s) in
        (Ret n, emit (Recv n) (set_pending (pending s - n) s))
    end.

(** [thunk()] *)
Definition invoke (t : thunk) : M unit :=
  fun s =>
    let (w, r) := call t (world s) in
    let s1 := emit (Invoke t) (set_world w s) in
    match r with
    | None => (Ret tt, s1)
    | Some e => (Raise e, s1)
    end.

(** The [print] of the handler in the thunk loop. *)
Definition report (e : exn) : M unit :=
  fun s => (Ret tt, emit (Report e) s).

(** ** The methods shared by the two flavours *)

(** [[
    def pull_trigger(self, thunk=None):
        if thunk:
            self.lock.acquire()
            try:
                self.thunks.append(thunk)
            finally:
                self.lock.release()
        os.write(self.trigger, 'x')          # self.trigger.send('x')
    ]] *)
Definition pull_trigger (arg : option thunk) : M unit :=
  (match arg with
   | Some t =>
       if truth t then
         lock_acquire ;;
         try_finally (thunks_append t) lock_release
       else ret tt
   | None => ret tt
   end) ;;
  write_x.

(** The body of the [for] loop of [handle_read]:
    [[
    try:
        thunk()
    except:
        nil, t, v, tbinfo = asyncore.compact_traceback()
        print ('exception in trigger thunk:' ' (%s:%s %s)' % (t, v, tbinfo))
    ]] *)
Definition run_thunk (t : thunk) : M unit :=
  try_except (invoke t) any_error report.

(** [[
    def handle_read(self):
        try:
            self.recv(8192)
        except socket.error:
            return
        self.lock.acquire()
        try:
            for thunk in self.thunks:
                ...
            self.thunks = []
        finally:
            self.lock.release()
    ]]
    The first step yields [false] when the handler of [socket.error]
    returns from the method. *)
Definition handle_read : M unit :=
  go_on <- try_except (recv 8192 ;; ret true) is_socket_error
             (fun _ => ret false) ;;
  if go_on : bool then
    lock_acquire ;;
    try_finally
      (fun s => (for_each (thunks s) run_thunk ;; thunks_clear) s)
      lock_release
  else ret tt.

(** ** Construction, pipe flavour *)

(** [[
    def __init__(self):
        r, w = self._fds = os.pipe()
        self.trigger = w
        asyncore.file_dispatcher.__init__(self, r)
        self.lock = thread.allocate_lock()
        self.thunks = []
        self._closed = 0
    ]] *)
Definition pipe_init (w0 : World) : state :=
  {| kind := Pipe; lock := false; thunks := []; _closed := false;
     _fds := [Rd; Wr]; r_open := true; w_open := true; pending := 0;
     rd_fault := None; wr_fault := None; world := w0; trace := [] |}.

(** ** Closing *)

(** [self.del_channel()] of asyncore: the object leaves the socket map. *)
Definition del_channel : M unit :=
  fun s => (Ret tt, emit DelChannel s).

(** [os.close(fd)]: releasing a descriptor that is not allocated raises
    [OSError]. *)
Definition os_close (h : handle) : M unit :=
  fun s =>
    if is_open h s
    then (Ret tt, emit (CloseHandle h) (set_open h false s))
    else (Raise OSError, emit (CloseFailed h) s).

(** [sock.close()] on a socket object: closing it again does nothing. *)
Definition socket_close (h : handle) : M unit :=
  fun s =>
    if is_open h s
    then (Ret tt, emit (CloseHandle h) (set_open h false s))
    else (Ret tt, s).

(** [[
    def close(self):
        if not self._closed:
            self._closed = 1
            self.del_channel()
            for fd in self._fds:
                os.close(fd)
            self._fds = []
    ]] *)
Definition pipe_close : M unit :=
  fun s =>
    if negb (_closed s) then
      ((fun s1 => (Ret tt, set_closed true s1)) ;;
       del_channel ;;
       (fun s1 => for_each (_fds s1) os_close s1) ;;
       (fun s1 => (Ret tt, set_fds [] s1))) s
    else (Ret tt, s).

(** The loopback class defines no [close]: it has the one of
    [asyncore.dispatcher].  As the comment above the pipe flavour's [close]
    says of the default, that one knows only the handle passed to the base
    constructor, which is [r]:
    [[
    def close(self):
        self.del_channel()
        self.socket.close()
    ]] *)
Definition dispatcher_close : M unit :=
  del_channel ;; socket_close Rd.

(** [close()] on a trigger of either flavour. *)
Definition close : M unit :=
  fun s =>
    match kind s with
    | Pipe => pipe_close s
    | Loopback => dispatcher_close s
    end.

(** ** Construction, loopback flavour *)

Definition MINPORT : Z := 19950.
Definition NPORTS : Z := 50.

(** The ports the constructor may bind: [MINPORT + k] for [k] below
    [NPORTS]. *)
Definition candidate (p : Z) : Prop := (MINPORT <= p < MINPORT + NPORTS)%Z.

(** [range(n)] *)
Definition range (n : Z) : list Z := map Z.of_nat (seq 0 (Z.to_nat n)).

(** Which addresses [a.bind] refuses with [socket.error]. *)
Variable taken : Z -> bool.

(** The [for ... else] of the constructor, from the value of the class
    attribute [trigger.portoffset]:
    [[
    for i in range(NPORTS):
        trigger.portoffset = (trigger.portoffset + 1) % NPORTS
        port = MINPORT + trigger.portoffset
        address = (HOST, port)
        try:
            a.bind(address)
        except socket.error:
            continue
        else:
            break
    else:
        raise RuntimeError, 'Cannot bind trigger!'
    ]]
    The result is the new [portoffset], the ports tried in order, and the
    port bound, or [None] when the loop ran to its [else]. *)
Fixpoint bind_loop (iters : list Z) (portoffset : Z) : Z * list Z * option Z :=
  match iters with
  | [] => (portoffset, [], None)
  | _ :: rest =>
      let portoffset1 := ((portoffset + 1) mod NPORTS)%Z in
      let port := (MINPORT + portoffset1)%Z in
      if taken port then
        let '(po, tried, r) := bind_loop rest portoffset1 in
        (po, port :: tried, r)
      else (portoffset1, [port], Some port)
  end.

(** The loopback constructor: the bind loop, then the listen / connect /
    accept handshake, which leaves the connected pair [r], [w]:
    [[
    self.trigger = w
    asyncore.dispatcher.__init__(self, r)
    self.lock = thread.allocate_lock()
    self.thunks = []
    self._trigger_connected = 0
    ]]
    The class has no [_closed] and no [_fds]; the two fields stay at their
    empty values. *)
Definition loopback_init (portoffset : Z) (w0 : World)
    : Z * list Z * (exn + state) :=
  let '(po, tried, r) := bind_loop (range NPORTS) portoffset in
  match r with
  | None => (po, tried, inl RuntimeError)
  | Some _ =>
      (po, tried,
       inr {| kind := Loopback; lock := false; thunks := []; _closed := false;
              _fds := []; r_open := true; w_open := true; pending := 0;
              rd_fault := None; wr_fault := None; world := w0; trace := [] |})
  end.

(** ** Reading the log *)

(** The thunks entered, in order. *)
Fixpoint invoked (tr : list event) : list thunk :=
  match tr with
  | [] => []
  | Invoke t :: rest => t :: invoked rest
  | _ :: rest => invoked rest
  end.

(** The errors reported, in order. *)
Fixpoint reported (tr : list event) : list exn :=
  match tr with
  | [] => []
  | Report e :: rest => e :: reported rest
  | _ :: rest => reported rest
  end.

(** How often a handle was released. *)
Fixpoint releases (h : handle) (tr : list event) : nat :=
  match tr with
  | [] => 0
  | CloseHandle h' :: rest =>
      (if handle_eqb h h' then 1 else 0) + releases h rest
  | _ :: rest => releases h rest
  end.

(** Calls into the operating system that read or write the channel. *)
Definition is_io (e : event) : bool :=
  match e with
  | Wrote _ | Recv _ | RecvFailed _ | WriteFailed _ => true
  | _ => false
  end.

Definition is_invoke (e : event) : bool :=
  match e with
  | Invoke _ => true
  | _ => false
  end.

(** The steps that the locking discipline of a guarded queue keeps out of
    the critical section: running a thunk, and reading or writing the
    channel. *)
Definition is_invoke_or_io (e : event) : bool := is_invoke e || is_io e.

(** [outside_lock p held tr]: walking the log from a moment at which the
    lock is held or not as [held] says, no event that satisfies [p] happens
    while the lock is held. *)
Fixpoint outside_lock (p : event -> bool) (held : bool) (tr : list event) : bool :=
  match tr with
  | [] => true
  | Acquire :: rest => outside_lock p true rest
  | Release :: rest => outside_lock p false rest
  | e :: rest => negb (held && p e) && outside_lock p held rest
  end.

(** [inside_lock p held tr]: every event that satisfies [p] happens while
    the lock is held. *)
Fixpoint inside_lock (p : event -> bool) (held : bool) (tr : list event) : bool :=
  match tr with
  | [] => true
  | Acquire :: rest => inside_lock p true rest
  | Release :: rest => inside_lock p false rest
  | e :: rest => (negb (p e) || held) && inside_lock p held rest
  end.

(** What running the thunks of a list in order does to the world, and the
    errors they raise. *)
Fixpoint run_all (ts : list thunk) (w : World) : World :=
  match ts with
  | [] => w
  | t :: rest => run_all rest (fst (call t w))
  end.

Fixpoint errors_of (ts : list thunk) (w : World) : list exn :=
  match ts with
  | [] => []
  | t :: rest =>
      match snd (call t w) with
      | Some e => e :: errors_of rest (fst (call t w))
      | None => errors_of rest (fst (call t w))
      end
  end.

(** The log of one pass over the thunks in [handle_read]. *)
Fixpoint drain_log (ts : list thunk) (w : World) : list event :=
  match ts with
  | [] => []
  | t :: rest =>
      match snd (call t w) with
      | Some e => Invoke t :: Report e :: drain_log rest (fst (call t w))
      | None => Invoke t :: drain_log rest (fst (call t w))
      end
  end.

(** The log of one successful pull per thunk of a list. *)
Fixpoint pull_log (ts : list thunk) : list event :=
  match ts with
  | [] => []
  | t :: rest => Acquire :: Append t :: Release :: Wrote 1 :: pull_log rest
  end.

(** [pull_trigger(t)] for each [t] of a list, one call after the other. *)
Definition pull_all (ts : list thunk) : M unit :=
  for_each ts (fun t => pull_trigger (Some t)).

(** [pull_trigger()] [n] times. *)
Definition pull_times (n : nat) : M unit :=
  for_each (repeat None n) pull_trigger.

(** ** The rest of the class, and runs of several calls *)

(** [handle_close] of the pipe flavour:
    [[
    def handle_close(self):
        self.close()
    ]] *)
Definition handle_close : M unit := close.

(** What one argument of [pull_trigger] puts in the queue: itself when it is
    true in [if thunk:], nothing otherwise. *)
Definition queued_by (arg : option thunk) : list thunk :=
  match arg with
  | Some t => if truth t then [t] else []
  | None => []
  end.

(** The log of one [pull_trigger] that goes through. *)
Definition pull_log_of (arg : option thunk) : list event :=
  match arg with
  | Some t => if truth t then [Acquire; Append t; Release; Wrote 1] else [Wrote 1]
  | None => [Wrote 1]
  end.

(** [pull_trigger(arg)] for each argument of a list, with or without a
    thunk, one call after the other. *)
Definition pull_each (args : list (option thunk)) : M unit :=
  for_each args pull_trigger.

(** A call on the trigger from outside, or a change of what the channel
    does on the next read or write. *)
Inductive action : Type :=
| DoPull (arg : option thunk)
| DoHandleRead
| DoClose
| DoHandleClose
| EnvRead (f : option exn)
| EnvWrite (f : option exn).

Definition perform (a : action) : M unit :=
  match a with
  | DoPull arg => pull_trigger arg
  | DoHandleRead => handle_read
  | DoClose => close
  | DoHandleClose => handle_close
  | EnvRead f => fun s => (Ret tt, set_rd_fault f s)
  | EnvWrite f => fun s => (Ret tt, set_wr_fault f s)
  end.

Definition is_closing (a : action) : bool :=
  match a with
  | DoClose | DoHandleClose => true
  | _ => false
  end.

(** The state after a list of actions, each one started where the one
    before left the trigger, whether it returned or raised. *)
Definition play (acts : list action) (s : state) : state :=
  fold_left (fun s1 a => snd (perform a s1)) acts s.

(** The thunks appended, in order. *)
Fixpoint appended (tr : list event) : list thunk :=
  match tr with
  | [] => []
  | Append t :: rest => t :: appended rest
  | _ :: rest => appended rest
  end.

(** [s'] has the lock, the queue and the record of appends and calls of
    [s]. *)
Definition same_queue (s s' : state) : Prop :=
  lock s' = lock s /\ thunks s' = thunks s /\
  appended (trace s') = appended (trace s) /\
  invoked (trace s') = invoked (trace s).

(** A step that does not wait and leaves lock, queue and record alone. *)
Definition quiet {A} (m : M A) : Prop :=
  forall s, fst (m s) <> Block /\ same_queue s (snd (m s)).

(** Every thunk appended so far has either been entered or is still in the
    queue, in the order of the appends. *)
Definition accounted (s : state) : Prop :=
  appended (trace s) = invoked (trace s) ++ thunks s.

(** [os.close] calls that raised. *)
Fixpoint close_failures (tr : list event) : nat :=
  match tr with
  | [] => 0
  | CloseFailed _ :: rest => S (close_failures rest)
  | _ :: rest => close_failures rest
  end.

(** What holds of a pipe trigger between calls: the lock is free, no
    [os.close] has raised, and the two descriptors are either both there and
    never released, with [_closed] unset, or both released once, with
    [_closed] set and [_fds] emptied. *)
Definition pipe_inv (s : state) : Prop :=
  kind s = Pipe /\ lock s = false /\ close_failures (trace s) = 0 /\
  if _closed s
  then _fds s = [] /\ r_open s = false /\ w_open s = false /\
       releases Rd (trace s) = 1 /\ releases Wr (trace s) = 1
  else _fds s = [Rd; Wr] /\ r_open s = true /\ w_open s = true /\
       releases Rd (trace s) = 0 /\ releases Wr (trace s) = 0.

(** The port that round [j] of the bind loop tries, from [portoffset]. *)
Definition port_of_round (portoffset : Z) (j : nat) : Z :=
  (MINPORT + (portoffset + Z.of_nat j) mod NPORTS)%Z.

End Trigger.

Arguments emit {World} e s /.
Arguments set_lock {World} b s /.
Arguments set_thunks {World} l s /.
Arguments set_closed {World} b s /.
Arguments set_fds {World} l s /.
Arguments set_open {World} h b s /.
Arguments set_pending {World} n s /.
Arguments set_world {World} w s /.
Arguments set_rd_fault {World} f s /.
Arguments set_wr_fault {World} f s /.
Arguments Acquire {World}.
Arguments Release {World}.
Arguments Wrote {World}.
Arguments Recv {World}.
Arguments RecvFailed {World}.
Arguments WriteFailed {World}.
Arguments Report {World}.
Arguments Clear {World}.
Arguments DelChannel {World}.
Arguments CloseHandle {World}.
Arguments CloseFailed {World}.
Arguments is_io {World}.
Arguments is_invoke {World}.
Arguments is_invoke_or_io {World}.
Arguments handle_read {World}.
Arguments pull_trigger {World}.
Arguments pull_all {World}.
Arguments close {World}.
Arguments pipe_close {World}.
Arguments dispatcher_close {World}.
Arguments pull_times {World}.
Arguments handle_close {World}.
Arguments queued_by {World}.
Arguments pull_log_of {World}.
Arguments pull_each {World}.
Arguments perform {World}.
Arguments play {World}.
Arguments DoHandleRead {World}.
Arguments DoClose {World}.
Arguments DoHandleClose {World}.
Arguments EnvRead {World}.
Arguments EnvWrite {World}.
Arguments close_failures {World}.
Arguments pipe_inv {World}.
Arguments accounted {World}.

(** ** Sample thunks over a counter *)

(** The world of the small runs below is one counter, as in
    [counter += 1]. *)
Module Sample.

(** [lambda: counter += 1], in effect. *)
Definition bump : thunk nat := Thunk true (fun c => (S c, None)).

(** A thunk that adds ten and then raises. *)
Definition boom : thunk nat := Thunk true (fun c => (10 + c, Some (AppError 7))).

(** A callable whose truth value is false, for instance an instance of a
    class with [__call__] and with [__len__] returning 0. *)
Definition hollow : thunk nat := Thunk false (fun c => (S c, None)).

(** A fresh pipe trigger with the counter at 0. *)
Definition fresh : state nat := pipe_init 0.

(** A fresh loopback trigger, all ports free, [portoffset] at 0. *)
Definition fresh_loopback : state nat :=
  match snd (loopback_init (fun _ => false) 0 0) with
  | inr s => s
  | inl _ => pipe_init 0
  end.

(** A pipe trigger whose read raises [OSError], the error of [os.read],
    for instance on a descriptor that is gone. *)
Definition torn : state nat := set_rd_fault (Some OSError) fresh.

(** A loopback trigger whose read raises [socket.error]. *)
Definition reset_by_peer : state nat :=
  set_rd_fault (Some SocketError) fresh_loopback.

(** The state in which [m] leaves [s]. *)
Definition after {A} (m : M nat A) (s : state nat) : state nat := snd (m s).

(** Five thunks, each adding one to the counter. *)
Definition five : list (thunk nat) := [bump; bump; bump; bump; bump].

(** A pipe trigger with a failing thunk between two good ones in its
    queue. *)
Definition loaded : state nat := after (pull_all [bump; boom; bump]) fresh.

(** A pipe trigger pulled 8193 times without a thunk since its last
    drain. *)
Definition flooded : state nat := after (pull_times (N.to_nat 8193)) fresh.

(** A pipe trigger whose write end refuses the byte. *)
Definition jammed : state nat := set_wr_fault (Some OSError) fresh.

(** A pipe trigger whose read descriptor was released behind its back. *)
Definition half_gone : state nat := set_open Rd false fresh.

(** The loaded trigger at a moment when its read raises [OSError]. *)
Definition torn_loaded : state nat := set_rd_fault (Some OSError) loaded.

(** Four pulls: a thunk, no thunk, a callable that is false in
    [if thunk:], a thunk that raises. *)
Definition mixed : list (option (thunk nat)) :=
  [Some bump; None; Some hollow; Some boom].

(** A day in the life of a trigger: pulls of every kind, a drain, a read
    that fails, a pull whose write fails, a drain, a close. *)
Definition busy : list (action nat) :=
  [DoPull (Some bump); DoPull None; DoPull (Some boom); DoHandleRead;
   EnvRead (Some SocketError); DoPull (Some bump); DoHandleRead;
   EnvRead None; EnvWrite (Some OSError); DoPull (Some bump);
   DoHandleRead; DoPull (Some hollow); DoClose].

(** Three closing calls. *)
Definition closings : list (action nat) := [DoClose; DoHandleClose; DoClose].

End Sample.

(** * Properties *)

Section Properties.

Variable World : Type.

#[local] Abbreviation state := (state World).
#[local] Abbreviation thunk := (thunk World).
#[local] Abbreviation event := (event World).
#[local] Abbreviation action := (action World).

(** ** The log *)

Lemma since_app (s s' : state) (evs : list event) :
  trace s' = trace s ++ evs -> since s s' = evs.
Proof.
  intros H. unfold since. rewrite H.
  rewrite skipn_app, skipn_all, Nat.sub_diag. reflexivity.
Qed.

Lemma invoked_app (a b : list event) :
  invoked (a ++ b) = invoked a ++ invoked b.
Proof.
  induction a as [|e a IH]; [reflexivity|].
  destruct e; cbn; rewrite IH; reflexivity.
Qed.

Lemma reported_app (a b : list event) :
  reported (a ++ b) = reported a ++ reported b.
Proof.
  induction a as [|e a IH]; [reflexivity|].
  destruct e; cbn; rewrite IH; reflexivity.
Qed.

Lemma invoked_drain_log (ts : list thunk) (w : World) :
  invoked (drain_log ts w) = ts.
Proof.
  revert w. induction ts as [|t ts IH]; intros w; [reflexivity|].
  cbn. destruct (snd (call t w)); cbn; rewrite IH; reflexivity.
Qed.

Lemma reported_drain_log (ts : list thunk) (w : World) :
  reported (drain_log ts w) = errors_of ts w.
Proof.
  revert w. induction ts as [|t ts IH]; intros w; [reflexivity|].
  cbn. destruct (snd (call t w)); cbn; rewrite IH; reflexivity.
Qed.

(** Between an [Acquire] and the next [Release] every event is inside the
    lock, whatever it is. *)
Lemma inside_lock_drain_log (p : event -> bool) (ts : list thunk) (w : World)
    (rest : list event) :
  inside_lock p true (drain_log ts w ++ rest) = inside_lock p true rest.
Proof.
  revert w. induction ts as [|t ts IH]; intros w; [reflexivity|].
  cbn. destruct (snd (call t w)); cbn; rewrite IH;
    rewrite ?orb_true_r; reflexivity.
Qed.

Lemma outside_lock_drain_log_io (held : bool) (ts : list thunk) (w : World)
    (rest : list event) :
  outside_lock is_io held (drain_log ts w ++ rest)
  = outside_lock is_io held rest.
Proof.
  revert w. induction ts as [|t ts IH]; intros w; [reflexivity|].
  cbn. destruct (snd (call t w)); cbn; rewrite IH;
    rewrite ?andb_false_r; reflexivity.
Qed.

(** ** The thunk loop *)

(** The loop of [handle_read] runs to its end whatever the thunks do: it
    leaves the world as the thunks leave it and adds one [Invoke] per thunk
    and one [Report] per error. *)
Lemma for_each_run_thunk (ts : list thunk) (s : state) :
  for_each ts (@run_thunk World) s =
  (Ret tt,
   State (kind s) (lock s) (thunks s) (_closed s) (_fds s) (r_open s)
         (w_open s) (pending s) (rd_fault s) (wr_fault s)
         (run_all ts (world s)) (trace s ++ drain_log ts (world s))).
Proof.
  revert s. induction ts as [|t ts IH]; intros s.
  - destruct s; cbn. rewrite app_nil_r. reflexivity.
  - cbn [for_each]. unfold bind at 1.
    unfold run_thunk at 1, try_except, invoke, any_error, report.
    cbn [drain_log run_all].
    destruct (call t (world s)) as [w [e|]] eqn:Hc; cbn [fst snd];
      rewrite IH; cbn; rewrite <- ?app_assoc; reflexivity.
Qed.

(** ** [handle_read] *)

(** When the read goes through and the lock is free, [handle_read] returns,
    and this is the state it leaves. *)
Lemma handle_read_ok (s : state) :
  rd_fault s = None -> lock s = false ->
  handle_read s =
  (Ret tt,
   State (kind s) false [] (_closed s) (_fds s) (r_open s) (w_open s)
         (pending s - N.min 8192 (pending s)) None (wr_fault s)
         (run_all (thunks s) (world s))
         (trace s ++ Recv (N.min 8192 (pending s)) :: Acquire
            :: drain_log (thunks s) (world s) ++ [Clear; Release])).
Proof.
  intros Hr Hl.
  unfold handle_read, bind, try_except, recv, ret, lock_acquire, try_finally.
  rewrite Hr. cbn -[N.min N.sub]. rewrite Hl.
  cbn -[N.min N.sub]. rewrite for_each_run_thunk.
  cbn -[N.min N.sub]. rewrite Hr.
  unfold emit, set_lock, set_thunks. cbn -[N.min N.sub].
  repeat (rewrite <- app_assoc; cbn [app]). reflexivity.
Qed.

(** The events of a successful [handle_read]. *)
Lemma handle_read_since (s : state) :
  rd_fault s = None -> lock s = false ->
  since s (snd (handle_read s)) =
  Recv (N.min 8192 (pending s)) :: Acquire
    :: drain_log (thunks s) (world s) ++ [Clear; Release].
Proof.
  intros Hr Hl. apply since_app. rewrite (handle_read_ok s Hr Hl). reflexivity.
Qed.

(** When the read raises, the method ends there: a [socket.error] makes it
    return, anything else leaves the method. *)
Lemma handle_read_fault (s : state) (e : exn) :
  rd_fault s = Some e ->
  handle_read s =
  (if is_socket_error e then Ret tt else Raise e, emit (RecvFailed e) s).
Proof.
  intros Hr.
  unfold handle_read, bind, try_except, recv, ret. rewrite Hr.
  destruct (is_socket_error e); reflexivity.
Qed.

(** ** [pull_trigger] *)

(** An argument that is false in [if thunk:] goes straight to the write. *)
Lemma pull_trigger_falsy (arg : option thunk) (s : state) :
  truthy arg = false ->
  pull_trigger arg s = write_x s.
Proof.
  intros Ht. unfold pull_trigger, bind, ret.
  destruct arg as [t|]; cbn in Ht; [rewrite Ht|]; reflexivity.
Qed.

Lemma pull_trigger_truthy (t : thunk) (s : state) :
  truth t = true -> lock s = false -> wr_fault s = None ->
  pull_trigger (Some t) s =
  (Ret tt,
   State (kind s) false (thunks s ++ [t]) (_closed s) (_fds s) (r_open s)
         (w_open s) (pending s + 1) (rd_fault s) None (world s)
         (trace s ++ [Acquire; Append t; Release; Wrote 1])).
Proof.
  intros Ht Hl Hw.
  unfold pull_trigger, bind, lock_acquire, try_finally, thunks_append,
    lock_release, write_x.
  rewrite Ht, Hl. cbn -[N.add]. rewrite Hw.
  cbn -[N.add]. repeat (rewrite <- app_assoc; cbn [app]). reflexivity.
Qed.

(** While the lock is held, a pull with a thunk waits at its first step and
    changes nothing. *)
Lemma pull_trigger_waits (t : thunk) (s : state) :
  truth t = true -> lock s = true ->
  pull_trigger (Some t) s = (Block, s).
Proof.
  intros Ht Hl. unfold pull_trigger, bind, lock_acquire.
  rewrite Ht, Hl. reflexivity.
Qed.

(** Pulls with thunks, one after the other. *)
Lemma pull_all_truthy (ts : list thunk) (s : state) :
  Forall (fun t => truth t = true) ts ->
  lock s = false -> wr_fault s = None ->
  pull_all ts s =
  (Ret tt,
   State (kind s) (lock s) (thunks s ++ ts) (_closed s) (_fds s) (r_open s)
         (w_open s) (pending s + N.of_nat (length ts)) (rd_fault s)
         (wr_fault s) (world s) (trace s ++ pull_log ts)).
Proof.
  intros Hts. revert s.
  induction Hts as [|t ts Ht Hts IH]; intros s Hl Hw.
  - destruct s; cbn -[N.add]. rewrite !app_nil_r, N.add_0_r. reflexivity.
  - unfold pull_all. cbn [for_each]. unfold bind at 1.
    rewrite (pull_trigger_truthy t s Ht Hl Hw).
    fold (pull_all ts). rewrite IH by reflexivity.
    cbn -[N.add N.of_nat]. rewrite Hl, Hw.
    repeat (rewrite <- app_assoc; cbn [app]).
    replace (pending s + 1 + N.of_nat (length ts))%N
      with (pending s + N.of_nat (S (length ts)))%N by lia.
    reflexivity.
Qed.

(** When the read goes through and the lock is held, the method waits at
    [self.lock.acquire()], after the read. *)
Lemma handle_read_waits (s : state) :
  rd_fault s = None -> lock s = true ->
  handle_read s =
  (Block,
   emit (Recv (N.min 8192 (pending s)))
     (set_pending (pending s - N.min 8192 (pending s)) s)).
Proof.
  intros Hr Hl.
  unfold handle_read, bind, try_except, recv, ret, lock_acquire, try_finally.
  rewrite Hr. cbn -[N.min N.sub]. rewrite Hl. reflexivity.
Qed.

Lemma filter_io_drain_log (ts : list thunk) (w : World) (rest : list event) :
  filter is_io (drain_log ts w ++ rest) = filter is_io rest.
Proof.
  revert w. induction ts as [|t ts IH]; intros w; [reflexivity|].
  cbn. destruct (snd (call t w)); cbn; apply IH.
Qed.

(** The write of [pull_trigger] comes after the release, or there is no
    acquire at all. *)
Lemma pull_trigger_io_outside_lock (arg : option thunk) (s : state) :
  lock s = false ->
  outside_lock is_io false (since s (snd (pull_trigger arg s))) = true.
Proof.
  intros Hl.
  destruct (truthy arg) eqn:Ht.
  - destruct arg as [t|]; [|discriminate]. cbn in Ht.
    unfold pull_trigger, bind, lock_acquire, try_finally, thunks_append,
      lock_release, write_x.
    rewrite Ht, Hl. cbn -[N.add].
    destruct (wr_fault s); cbn -[N.add];
      (erewrite since_app;
       [|cbn -[N.add]; repeat (rewrite <- app_assoc; cbn [app]); reflexivity]);
      reflexivity.
  - rewrite pull_trigger_falsy by exact Ht. unfold write_x.
    destruct (wr_fault s); cbn -[N.add];
      (erewrite since_app; [|cbn -[N.add]; reflexivity]); reflexivity.
Qed.

(** ** The wake/drain protocol *)

(** C1.  Thunks handed to [pull_trigger] one after the other (each one true
    in [if thunk:], so each one is appended) are all run by one
    [handle_read]: the calls return, the thunks entered during the drain
    are, in this order and each once, the thunks queued before followed by
    the ones pulled, the world is the one these leave, and the queue is
    empty afterwards. *)
Theorem pulled_thunks_run_once_in_order (s : state) (ts : list thunk) :
  Forall (fun t => truth t = true) ts ->
  lock s = false -> rd_fault s = None -> wr_fault s = None ->
  let s1 := snd (pull_all ts s) in
  let s2 := snd (handle_read s1) in
  fst (pull_all ts s) = Ret tt /\
  fst (handle_read s1) = Ret tt /\
  invoked (since s1 s2) = thunks s ++ ts /\
  world s2 = run_all (thunks s ++ ts) (world s) /\
  thunks s2 = [].
Proof.
  intros Hts Hl Hr Hw. cbn zeta.
  rewrite (pull_all_truthy s Hts Hl Hw). cbn [fst snd].
  set (s1 := State _ _ _ _ _ _ _ _ _ _ _ _).
  assert (Hr1 : rd_fault s1 = None) by exact Hr.
  assert (Hl1 : lock s1 = false) by exact Hl.
  rewrite (handle_read_since s1 Hr1 Hl1).
  rewrite (handle_read_ok s1 Hr1 Hl1). cbn [fst snd world thunks].
  repeat split.
  change (invoked ([Recv (N.min 8192 (pending s1)); Acquire]
                     ++ drain_log (thunks s1) (world s1) ++ [Clear; Release])
          = thunks s ++ ts).
  rewrite !invoked_app, invoked_drain_log. cbn. apply app_nil_r.
Qed.

(** C4.  A thunk that raises does not end the drain and does not make
    [handle_read] raise: the method returns, every thunk of the queue is
    entered, in order, the raising ones included and the ones after them
    too, and every error raised is printed. *)
Theorem thunk_errors_are_reported (s : state) :
  lock s = false -> rd_fault s = None ->
  let s' := snd (handle_read s) in
  fst (handle_read s) = Ret tt /\
  invoked (since s s') = thunks s /\
  reported (since s s') = errors_of (thunks s) (world s) /\
  since s s' =
    Recv (N.min 8192 (pending s)) :: Acquire
      :: drain_log (thunks s) (world s) ++ [Clear; Release].
Proof.
  intros Hl Hr. cbn zeta.
  rewrite (handle_read_since s Hr Hl), (handle_read_ok s Hr Hl).
  repeat split.
  - change (invoked ([Recv (N.min 8192 (pending s)); Acquire]
                       ++ drain_log (thunks s) (world s) ++ [Clear; Release])
            = thunks s).
    rewrite !invoked_app, invoked_drain_log. cbn. apply app_nil_r.
  - change (reported ([Recv (N.min 8192 (pending s)); Acquire]
                       ++ drain_log (thunks s) (world s) ++ [Clear; Release])
            = errors_of (thunks s) (world s)).
    rewrite !reported_app, reported_drain_log. cbn. apply app_nil_r.
Qed.

(** C9.  [pull_trigger()] without a thunk returns after one step, the
    write of one byte; the queue is what it was, so the next drain runs
    only what was queued before, and leaves a queue of length 0. *)
Theorem pull_without_thunk (s : state) :
  wr_fault s = None -> rd_fault s = None -> lock s = false ->
  let s1 := snd (pull_trigger None s) in
  let s2 := snd (handle_read s1) in
  fst (pull_trigger None s) = Ret tt /\
  since s s1 = [Wrote 1] /\
  thunks s1 = thunks s /\
  pending s1 = (pending s + 1)%N /\
  fst (handle_read s1) = Ret tt /\
  invoked (since s1 s2) = thunks s /\
  length (thunks s2) = 0.
Proof.
  intros Hw Hr Hl. cbn zeta.
  rewrite (@pull_trigger_falsy None s eq_refl). unfold write_x. rewrite Hw.
  cbn [fst snd].
  set (s1 := emit (Wrote 1) (set_pending (pending s + 1) s)).
  assert (Hr1 : rd_fault s1 = None) by exact Hr.
  assert (Hl1 : lock s1 = false) by exact Hl.
  rewrite (handle_read_since s1 Hr1 Hl1), (handle_read_ok s1 Hr1 Hl1).
  repeat split.
  - apply since_app. reflexivity.
  - change (invoked ([Recv (N.min 8192 (pending s1)); Acquire]
                       ++ drain_log (thunks s1) (world s1) ++ [Clear; Release])
            = thunks s).
    rewrite !invoked_app, invoked_drain_log. cbn. apply app_nil_r.
Qed.

(** C10.  An argument that is there but false in [if thunk:] is not
    appended, and no lock is touched; the byte is written all the same. *)
Theorem pull_tests_truth_not_presence (s : state) (t : thunk) :
  truth t = false -> wr_fault s = None ->
  let s1 := snd (pull_trigger (Some t) s) in
  fst (pull_trigger (Some t) s) = Ret tt /\
  thunks s1 = thunks s /\
  since s s1 = [Wrote 1] /\
  pending s1 = (pending s + 1)%N.
Proof.
  intros Ht Hw. cbn zeta.
  rewrite (@pull_trigger_falsy (Some t) s Ht). unfold write_x. rewrite Hw.
  repeat split. apply since_app. reflexivity.
Qed.

(** C5, with the truth value named.  For a thunk that is true in
    [if thunk:], [pull_trigger(thunk)] acquires the lock, appends the thunk,
    releases the lock and only then writes one byte; these four steps are
    all it does. *)
Theorem pull_appends_then_writes (s : state) (t : thunk) :
  truth t = true -> lock s = false -> wr_fault s = None ->
  let s1 := snd (pull_trigger (Some t) s) in
  fst (pull_trigger (Some t) s) = Ret tt /\
  since s s1 = [Acquire; Append t; Release; Wrote 1] /\
  thunks s1 = thunks s ++ [t] /\
  pending s1 = (pending s + 1)%N /\
  lock s1 = false.
Proof.
  intros Ht Hl Hw. cbn zeta.
  rewrite (pull_trigger_truthy t s Ht Hl Hw).
  repeat split. apply since_app. reflexivity.
Qed.

(** C6, with the size of the read named.  Each [handle_read] whose read
    goes through reads the channel once, for at most 8192 bytes: it takes
    the pending bytes up to that number, which is all of them when there
    are no more than 8192. *)
Theorem handle_read_reads_at_most_8192 (s : state) :
  rd_fault s = None ->
  let s' := snd (handle_read s) in
  filter is_io (since s s') = [Recv (N.min 8192 (pending s))] /\
  pending s' = (pending s - N.min 8192 (pending s))%N /\
  ((pending s <= 8192)%N -> pending s' = 0%N).
Proof.
  intros Hr. cbn zeta.
  assert (Hp : pending (snd (handle_read s))
               = (pending s - N.min 8192 (pending s))%N).
  { destruct (lock s) eqn:Hl.
    - rewrite (handle_read_waits s Hr Hl). reflexivity.
    - rewrite (handle_read_ok s Hr Hl). reflexivity. }
  split; [|split].
  - destruct (lock s) eqn:Hl.
    + rewrite (handle_read_waits s Hr Hl).
      erewrite since_app; [|reflexivity]. reflexivity.
    + rewrite (handle_read_since s Hr Hl).
      change (filter is_io
                ([Recv (N.min 8192 (pending s)); Acquire]
                   ++ drain_log (thunks s) (world s) ++ [Clear; Release])
              = [Recv (N.min 8192 (pending s))]).
      rewrite filter_app, filter_io_drain_log. reflexivity.
  - exact Hp.
  - intros Hle. rewrite Hp. lia.
Qed.



(** ** Closing *)

(** The pipe flavour: the first [close] releases the two descriptors, once
    each, in the order of [self._fds]. *)
Lemma pipe_close_first (s : state) :
  kind s = Pipe -> _closed s = false -> _fds s = [Rd; Wr] ->
  r_open s = true -> w_open s = true ->
  close s =
  (Ret tt,
   State Pipe (lock s) (thunks s) true [] false false (pending s)
         (rd_fault s) (wr_fault s) (world s)
         (trace s ++ [DelChannel; CloseHandle Rd; CloseHandle Wr])).
Proof.
  intros Hk Hc Hf Hro Hwo.
  unfold close, pipe_close. rewrite Hk, Hc. cbn [negb].
  unfold bind, del_channel. cbn. rewrite Hf. cbn.
  unfold os_close, bind. cbn. rewrite Hro. cbn. rewrite Hwo. cbn.
  rewrite Hk. repeat (rewrite <- app_assoc; cbn [app]). reflexivity.
Qed.

(** The pipe flavour: once [_closed] is set, [close] does nothing. *)
Lemma pipe_close_again (s : state) :
  kind s = Pipe -> _closed s = true -> close s = (Ret tt, s).
Proof.
  intros Hk Hc. unfold close, pipe_close. rewrite Hk, Hc. reflexivity.
Qed.

(** The pipe flavour, both calls: no error, each end released once. *)
Lemma pipe_close_twice (s : state) :
  kind s = Pipe -> _closed s = false -> _fds s = [Rd; Wr] ->
  r_open s = true -> w_open s = true ->
  let s1 := snd (close s) in
  let s2 := snd (close s1) in
  fst (close s) = Ret tt /\ fst (close s1) = Ret tt /\ s2 = s1 /\
  r_open s2 = false /\ w_open s2 = false /\
  releases Rd (since s s2) = 1 /\ releases Wr (since s s2) = 1.
Proof.
  intros Hk Hc Hf Hro Hwo. cbn zeta.
  rewrite (pipe_close_first s Hk Hc Hf Hro Hwo). cbn [fst snd].
  rewrite pipe_close_again by reflexivity. cbn [fst snd].
  repeat split; erewrite since_app; try reflexivity; reflexivity.
Qed.

(** C3, at the loopback flavour.  Its [close] is the inherited one: it
    returns, and it returns when called again, but it never releases the
    write end, which stays as it was through both calls. *)
Theorem loopback_close_leaves_write_end (s : state) :
  kind s = Loopback ->
  let s1 := snd (close s) in
  let s2 := snd (close s1) in
  fst (close s) = Ret tt /\ fst (close s1) = Ret tt /\
  r_open s2 = false /\
  w_open s1 = w_open s /\ w_open s2 = w_open s /\
  releases Wr (since s s2) = 0.
Proof.
  intros Hk. cbn zeta.
  unfold close. rewrite Hk.
  unfold dispatcher_close, bind, del_channel, socket_close. cbn.
  destruct (r_open s) eqn:Hro; cbn; rewrite Hk; cbn; rewrite ?Hro; cbn;
    repeat split;
    (erewrite since_app;
     [|cbn; repeat (rewrite <- app_assoc; cbn [app]); reflexivity]);
    reflexivity.
Qed.

(** ** The bind loop of the loopback constructor *)

Variable taken : Z -> bool.

Lemma next_offset (po j : Z) :
  (((po + 1) mod NPORTS + j) mod NPORTS = (po + (j + 1)) mod NPORTS)%Z.
Proof.
  rewrite Z.add_mod_idemp_l by (unfold NPORTS; lia).
  f_equal. lia.
Qed.

(** The loop runs to its [else] exactly when each of its rounds met a port
    that was taken; round [j] tries offset [(portoffset + j) % NPORTS]. *)
Lemma bind_loop_none (iters : list Z) (po : Z) :
  snd (bind_loop taken iters po) = None <->
  (forall j, (1 <= j <= Z.of_nat (length iters))%Z ->
             taken (MINPORT + (po + j) mod NPORTS)%Z = true).
Proof.
  revert po. induction iters as [|i rest IH]; intros po.
  - cbn. split; [intros _ j Hj; lia | reflexivity].
  - cbn [bind_loop].
    destruct (taken (MINPORT + (po + 1) mod NPORTS)%Z) eqn:Ht.
    + specialize (IH ((po + 1) mod NPORTS)%Z).
      destruct (bind_loop taken rest ((po + 1) mod NPORTS)%Z) as [[po' tr] r].
      cbn [snd] in *. rewrite IH. cbn [length]. split.
      * intros H j Hj. destruct (Z.eq_dec j 1) as [->|Hne]; [exact Ht|].
        specialize (H (j - 1)%Z). rewrite next_offset in H.
        replace (j - 1 + 1)%Z with j in H by lia. apply H. lia.
      * intros H j Hj. rewrite next_offset. apply H. lia.
    + cbn [snd]. split; [discriminate|].
      intros H. specialize (H 1%Z). cbn [length] in H.
      rewrite H in Ht by lia. discriminate.
Qed.

(** Every port tried is a candidate. *)
Lemma bind_loop_tried_candidates (iters : list Z) (po : Z) (p : Z) :
  In p (snd (fst (bind_loop taken iters po))) -> candidate p.
Proof.
  revert po. induction iters as [|i rest IH]; intros po; [intros []|].
  cbn [bind_loop].
  assert (Hc : candidate (MINPORT + (po + 1) mod NPORTS)%Z).
  { unfold candidate.
    pose proof (Z.mod_pos_bound (po + 1) NPORTS ltac:(unfold NPORTS; lia)).
    lia. }
  destruct (taken (MINPORT + (po + 1) mod NPORTS)%Z).
  - specialize (IH ((po + 1) mod NPORTS)%Z).
    destruct (bind_loop taken rest ((po + 1) mod NPORTS)%Z) as [[po' tr] r].
    cbn [fst snd] in *. intros [<-|Hin]; [exact Hc|exact (IH Hin)].
  - cbn [fst snd]. intros [<-|[]]. exact Hc.
Qed.

(** When the loop runs to its [else], round [j] left its port in the list
    of the ports tried. *)
Lemma bind_loop_none_tried (iters : list Z) (po : Z) :
  snd (bind_loop taken iters po) = None ->
  forall j, (1 <= j <= Z.of_nat (length iters))%Z ->
            In (MINPORT + (po + j) mod NPORTS)%Z
               (snd (fst (bind_loop taken iters po))).
Proof.
  revert po. induction iters as [|i rest IH]; intros po.
  - cbn. intros _ j Hj. lia.
  - cbn [bind_loop].
    destruct (taken (MINPORT + (po + 1) mod NPORTS)%Z) eqn:Ht.
    + specialize (IH ((po + 1) mod NPORTS)%Z).
      destruct (bind_loop taken rest ((po + 1) mod NPORTS)%Z) as [[po' tr] r].
      cbn [fst snd length] in *. intros Hr j Hj.
      destruct (Z.eq_dec j 1) as [->|Hne]; [left; reflexivity|].
      right. specialize (IH Hr (j - 1)%Z). rewrite next_offset in IH.
      replace (j - 1 + 1)%Z with j in IH by lia. apply IH. lia.
    + cbn [snd]. discriminate.
Qed.

(** When the loop breaks, the port bound is free, it is the last one tried,
    the ones before it were taken, and [portoffset] points at it. *)
Lemma bind_loop_some (iters : list Z) (po : Z) (p : Z) :
  snd (bind_loop taken iters po) = Some p ->
  taken p = false /\
  p = (MINPORT + fst (fst (bind_loop taken iters po)))%Z /\
  exists before,
    snd (fst (bind_loop taken iters po)) = before ++ [p] /\
    forall q, In q before -> taken q = true.
Proof.
  revert po. induction iters as [|i rest IH]; intros po; [discriminate|].
  cbn [bind_loop].
  destruct (taken (MINPORT + (po + 1) mod NPORTS)%Z) eqn:Ht.
  - specialize (IH ((po + 1) mod NPORTS)%Z).
    destruct (bind_loop taken rest ((po + 1) mod NPORTS)%Z) as [[po' tr] r].
    cbn [fst snd] in *. intros Hr.
    destruct (IH Hr) as (Hfree & Hpo & before & Htr & Hbefore).
    split; [exact Hfree|]. split; [exact Hpo|].
    exists ((MINPORT + (po + 1) mod NPORTS)%Z :: before). split.
    + rewrite Htr. reflexivity.
    + intros q [<-|Hq]; [exact Ht|exact (Hbefore q Hq)].
  - cbn [fst snd]. intros [= <-]. split; [exact Ht|]. split; [reflexivity|].
    exists []. split; [reflexivity|intros q []].
Qed.

(** Fifty consecutive offsets meet every candidate port, wherever
    [portoffset] stands. *)
Lemma rounds_cover_candidates (po p : Z) :
  candidate p ->
  exists j, (1 <= j <= NPORTS)%Z /\ p = (MINPORT + (po + j) mod NPORTS)%Z.
Proof.
  unfold candidate, NPORTS. intros Hp.
  exists ((p - MINPORT - po - 1) mod 50 + 1)%Z.
  split; Z.div_mod_to_equations; lia.
Qed.

Lemma length_range_NPORTS : Z.of_nat (length (range NPORTS)) = NPORTS.
Proof. reflexivity. Qed.

(** C8.  The loopback constructor raises its [RuntimeError] exactly when
    every port from [MINPORT] to [MINPORT + NPORTS - 1] is taken.  It tries
    candidate ports only; when it fails it has tried every one of them;
    when it succeeds, the last port tried is free and the ones tried before
    it were taken. *)
Theorem bind_exhausted_iff_all_taken (po : Z) (w : World) :
  let res := loopback_init taken po w in
  let tried := snd (fst res) in
  (snd res = inl RuntimeError <-> (forall p, candidate p -> taken p = true)) /\
  (forall p, In p tried -> candidate p) /\
  (snd res = inl RuntimeError -> forall p, candidate p -> In p tried) /\
  (forall s, snd res = inr s ->
     exists before p,
       tried = before ++ [p] /\ taken p = false /\
       forall q, In q before -> taken q = true).
Proof.
  cbn zeta. unfold loopback_init.
  pose proof (bind_loop_none (range NPORTS) po) as Hnone.
  pose proof (bind_loop_tried_candidates (range NPORTS) po) as Hcand.
  pose proof (bind_loop_none_tried (range NPORTS) po) as Htried.
  pose proof (bind_loop_some (range NPORTS) po) as Hsome.
  rewrite length_range_NPORTS in Hnone, Htried.
  destruct (bind_loop taken (range NPORTS) po) as [[po' tr] r].
  cbn [fst snd] in *.
  assert (Hexh : r = None <-> (forall p, candidate p -> taken p = true)).
  { rewrite Hnone. split.
    - intros H p Hp. destruct (rounds_cover_candidates po Hp) as (j & Hj & ->).
      apply H. exact Hj.
    - intros H j Hj. apply H. unfold candidate.
      pose proof (Z.mod_pos_bound (po + j) NPORTS ltac:(unfold NPORTS; lia)).
      lia. }
  destruct r as [p|]; cbn [fst snd].
  - split; [|split; [|split]].
    + rewrite <- Hexh. split; discriminate.
    + exact Hcand.
    + discriminate.
    + intros s _. destruct (Hsome p eq_refl) as (Hfree & _ & before & Htr & Hb).
      exists before, p. auto.
  - split; [|split; [|split]].
    + rewrite <- Hexh. split; reflexivity.
    + exact Hcand.
    + intros _ p Hp. destruct (rounds_cover_candidates po Hp) as (j & Hj & ->).
      apply Htried; [reflexivity|exact Hj].
    + discriminate.
Qed.

(** * Further properties of the class *)

(** ** Pulls of any kind *)

(** A pull with a thunk whose write raises: the thunk is in the queue and
    the lock is free again when the error leaves [pull_trigger]. *)
Lemma pull_trigger_write_fails (t : thunk) (s : state) (e : exn) :
  truth t = true -> lock s = false -> wr_fault s = Some e ->
  pull_trigger (Some t) s =
  (Raise e,
   State (kind s) false (thunks s ++ [t]) (_closed s) (_fds s) (r_open s)
         (w_open s) (pending s) (rd_fault s) (Some e) (world s)
         (trace s ++ [Acquire; Append t; Release; WriteFailed e])).
Proof.
  intros Ht Hl Hw.
  unfold pull_trigger, bind, lock_acquire, try_finally, thunks_append,
    lock_release, write_x.
  rewrite Ht, Hl. cbn. rewrite Hw.
  cbn. repeat (rewrite <- app_assoc; cbn [app]). reflexivity.
Qed.

(** One pull that goes through, whatever its argument. *)
Lemma pull_trigger_ok (arg : option thunk) (s : state) :
  lock s = false -> wr_fault s = None ->
  pull_trigger arg s =
  (Ret tt,
   State (kind s) false (thunks s ++ queued_by arg) (_closed s) (_fds s)
         (r_open s) (w_open s) (pending s + 1) (rd_fault s) None (world s)
         (trace s ++ pull_log_of arg)).
Proof.
  intros Hl Hw. destruct (truthy arg) eqn:Ht.
  - destruct arg as [t|]; [|discriminate]. cbn in Ht.
    rewrite (pull_trigger_truthy t s Ht Hl Hw).
    unfold queued_by, pull_log_of. rewrite Ht. reflexivity.
  - rewrite (pull_trigger_falsy arg s Ht). unfold write_x. rewrite Hw.
    assert (Hq : queued_by arg = []).
    { destruct arg as [t|]; [cbn in *; rewrite Ht|]; reflexivity. }
    assert (Hg : pull_log_of arg = [Wrote 1]).
    { destruct arg as [t|]; [cbn in *; rewrite Ht|]; reflexivity. }
    rewrite Hq, Hg, app_nil_r. cbn -[N.add]. rewrite Hl, Hw. reflexivity.
Qed.

Lemma pull_each_ok (args : list (option thunk)) (s : state) :
  lock s = false -> wr_fault s = None ->
  pull_each args s =
  (Ret tt,
   State (kind s) (lock s) (thunks s ++ flat_map queued_by args) (_closed s)
         (_fds s) (r_open s) (w_open s)
         (pending s + N.of_nat (length args)) (rd_fault s) (wr_fault s)
         (world s) (trace s ++ flat_map pull_log_of args)).
Proof.
  revert s. induction args as [|a args IH]; intros s Hl Hw.
  - destruct s; cbn -[N.add]. rewrite !app_nil_r, N.add_0_r. reflexivity.
  - unfold pull_each. cbn [for_each]. unfold bind at 1.
    rewrite (pull_trigger_ok a s Hl Hw).
    fold (pull_each args). rewrite IH by reflexivity.
    cbn -[N.add N.of_nat]. rewrite Hl, Hw.
    rewrite <- !app_assoc.
    replace (pending s + 1 + N.of_nat (length args))%N
      with (pending s + N.of_nat (S (length args)))%N by lia.
    reflexivity.
Qed.

(** X6.  Pulls of any kind, one after the other, with the lock free and
    the channel in order: each call returns; the queue gains the arguments
    that are true in [if thunk:], in the order of the calls, and nothing
    for the others; and the next [handle_read] runs what was queued before
    and then these. *)
Theorem pulls_queue_the_truthy_arguments (args : list (option thunk))
    (s : state) :
  lock s = false -> rd_fault s = None -> wr_fault s = None ->
  let s1 := snd (pull_each args s) in
  let s2 := snd (handle_read s1) in
  fst (pull_each args s) = Ret tt /\
  thunks s1 = thunks s ++ flat_map queued_by args /\
  lock s1 = false /\
  fst (handle_read s1) = Ret tt /\
  invoked (since s1 s2) = thunks s ++ flat_map queued_by args /\
  thunks s2 = [].
Proof.
  intros Hl Hr Hw. cbn zeta.
  rewrite (pull_each_ok args s Hl Hw). cbn [fst snd].
  set (s1 := State _ _ _ _ _ _ _ _ _ _ _ _).
  assert (Hr1 : rd_fault s1 = None) by exact Hr.
  assert (Hl1 : lock s1 = false) by exact Hl.
  rewrite (handle_read_since s1 Hr1 Hl1), (handle_read_ok s1 Hr1 Hl1).
  cbn [fst snd thunks lock].
  repeat split; try exact Hl.
  change (invoked ([Recv (N.min 8192 (pending s1)); Acquire]
                     ++ drain_log (thunks s1) (world s1) ++ [Clear; Release])
          = thunks s ++ flat_map queued_by args).
  rewrite !invoked_app, invoked_drain_log. cbn. apply app_nil_r.
Qed.

(** X7.  The wakeup bytes of several pulls are taken by one read: after
    [n] pulls the channel holds [n] bytes more, and when that makes no
    more than 8192 one [handle_read] reads once and leaves the channel
    empty. *)
Theorem pulls_coalesce_into_one_read (args : list (option thunk)) (s : state) :
  lock s = false -> rd_fault s = None -> wr_fault s = None ->
  (pending s + N.of_nat (length args) <= 8192)%N ->
  let s1 := snd (pull_each args s) in
  let s2 := snd (handle_read s1) in
  pending s1 = (pending s + N.of_nat (length args))%N /\
  filter is_io (since s1 s2) = [Recv (pending s + N.of_nat (length args))] /\
  pending s2 = 0%N.
Proof.
  intros Hl Hr Hw Hle. cbn zeta.
  rewrite (pull_each_ok args s Hl Hw). cbn [fst snd].
  set (s1 := State _ _ _ _ _ _ _ _ _ _ _ _).
  assert (Hr1 : rd_fault s1 = None) by exact Hr.
  assert (Hl1 : lock s1 = false) by exact Hl.
  assert (Hp1 : pending s1 = (pending s + N.of_nat (length args))%N)
    by reflexivity.
  rewrite (handle_read_since s1 Hr1 Hl1), (handle_read_ok s1 Hr1 Hl1).
  cbn [fst snd pending]. rewrite Hp1.
  rewrite N.min_r by exact Hle.
  split; [reflexivity|]. split.
  - change (filter is_io
              ([Recv (pending s + N.of_nat (length args)); Acquire]
                 ++ drain_log (thunks s1) (world s1) ++ [Clear; Release])
            = [Recv (pending s + N.of_nat (length args))]).
    rewrite filter_app, filter_io_drain_log. reflexivity.
  - lia.
Qed.

(** X3.  When the write of the wakeup byte raises, the error leaves
    [pull_trigger] after the append: the thunk is queued, the lock is free,
    no byte went out, and the next [handle_read] whose read goes through
    runs the thunk. *)
Theorem failed_write_keeps_the_thunk (t : thunk) (s : state) (e : exn) :
  truth t = true -> lock s = false -> wr_fault s = Some e ->
  rd_fault s = None ->
  let s1 := snd (pull_trigger (Some t) s) in
  let s2 := snd (handle_read s1) in
  fst (pull_trigger (Some t) s) = Raise e /\
  thunks s1 = thunks s ++ [t] /\
  lock s1 = false /\
  pending s1 = pending s /\
  fst (handle_read s1) = Ret tt /\
  invoked (since s1 s2) = thunks s ++ [t].
Proof.
  intros Ht Hl Hw Hr. cbn zeta.
  rewrite (pull_trigger_write_fails t s Ht Hl Hw). cbn [fst snd].
  set (s1 := State _ _ _ _ _ _ _ _ _ _ _ _).
  assert (Hr1 : rd_fault s1 = None) by exact Hr.
  assert (Hl1 : lock s1 = false) by reflexivity.
  rewrite (handle_read_since s1 Hr1 Hl1), (handle_read_ok s1 Hr1 Hl1).
  repeat split.
  change (invoked ([Recv (N.min 8192 (pending s1)); Acquire]
                     ++ drain_log (thunks s1) (world s1) ++ [Clear; Release])
          = thunks s ++ [t]).
  rewrite !invoked_app, invoked_drain_log. cbn. apply app_nil_r.
Qed.

(** ** Reads that fail, drains that find nothing *)

(** X4.  A read that raises loses no work.  Whatever the error, the method
    ends before it touches the lock: the queue, the world and the pending
    bytes are as they were, a [socket.error] is swallowed and any other
    error is the one that leaves the method.  Once the channel reads again,
    the next [handle_read] runs the whole queue. *)
Theorem failed_read_loses_no_work (s : state) (e : exn) :
  rd_fault s = Some e -> lock s = false ->
  let s1 := snd (handle_read s) in
  let s2 := set_rd_fault None s1 in
  let s3 := snd (handle_read s2) in
  fst (handle_read s) = (if is_socket_error e then Ret tt else Raise e) /\
  since s s1 = [RecvFailed e] /\
  thunks s1 = thunks s /\ world s1 = world s /\ pending s1 = pending s /\
  lock s1 = false /\
  fst (handle_read s2) = Ret tt /\
  invoked (since s2 s3) = thunks s /\
  thunks s3 = [].
Proof.
  intros Hr Hl. cbn zeta.
  rewrite (handle_read_fault s Hr). cbn [fst snd].
  set (s2 := set_rd_fault None (emit (RecvFailed e) s)).
  assert (Hr2 : rd_fault s2 = None) by reflexivity.
  assert (Hl2 : lock s2 = false) by exact Hl.
  rewrite (handle_read_since s2 Hr2 Hl2), (handle_read_ok s2 Hr2 Hl2).
  repeat split; try exact Hl.
  - apply since_app. reflexivity.
  - change (invoked ([Recv (N.min 8192 (pending s2)); Acquire]
                       ++ drain_log (thunks s2) (world s2) ++ [Clear; Release])
            = thunks s).
    rewrite !invoked_app, invoked_drain_log. cbn. apply app_nil_r.
Qed.


(** ** What the calls leave alone *)

Lemma releases_app (h : handle) (a b : list event) :
  releases h (a ++ b) = releases h a + releases h b.
Proof.
  induction a as [|e a IH]; [reflexivity|].
  destruct e; cbn; rewrite IH; lia.
Qed.

Lemma close_failures_app (a b : list event) :
  close_failures (a ++ b) = close_failures a + close_failures b.
Proof.
  induction a as [|e a IH]; [reflexivity|].
  destruct e; cbn; rewrite IH; reflexivity.
Qed.

Lemma releases_drain_log (h : handle) (ts : list thunk) (w : World) :
  releases h (drain_log ts w) = 0.
Proof.
  revert w. induction ts as [|t ts IH]; intros w; [reflexivity|].
  cbn. destruct (snd (call t w)); cbn; apply IH.
Qed.

Lemma close_failures_drain_log (ts : list thunk) (w : World) :
  close_failures (drain_log ts w) = 0.
Proof.
  revert w. induction ts as [|t ts IH]; intros w; [reflexivity|].
  cbn. destruct (snd (call t w)); cbn; apply IH.
Qed.

Lemma releases_pull_log_of (h : handle) (arg : option thunk) :
  releases h (pull_log_of arg) = 0.
Proof. destruct arg as [t|]; cbn; [destruct (truth t)|]; reflexivity. Qed.

Lemma close_failures_pull_log_of (arg : option thunk) :
  close_failures (pull_log_of arg) = 0.
Proof. destruct arg as [t|]; cbn; [destruct (truth t)|]; reflexivity. Qed.

(** [pull_trigger] from a free lock, on every path: it comes back, with
    the lock free, and it has not gone near the handles. *)
Lemma pull_trigger_frame (arg : option thunk) (s : state) :
  lock s = false ->
  let s' := snd (pull_trigger arg s) in
  fst (pull_trigger arg s) <> Block /\
  lock s' = false /\
  kind s' = kind s /\ _closed s' = _closed s /\ _fds s' = _fds s /\
  r_open s' = r_open s /\ w_open s' = w_open s /\
  (forall h, releases h (trace s') = releases h (trace s)) /\
  close_failures (trace s') = close_failures (trace s).
Proof.
  intros Hl. cbn zeta.
  destruct (wr_fault s) as [e|] eqn:Hw.
  - destruct (truthy arg) eqn:Ht.
    + destruct arg as [t|]; [|discriminate]. cbn in Ht.
      rewrite (pull_trigger_write_fails t s Ht Hl Hw). cbn [fst snd].
      cbn [lock kind _closed _fds r_open w_open trace].
      repeat split; try discriminate.
      * intros h. rewrite releases_app. cbn. lia.
      * rewrite close_failures_app. cbn. lia.
    + rewrite (pull_trigger_falsy arg s Ht). unfold write_x. rewrite Hw.
      cbn. repeat split; try discriminate; try exact Hl.
      * intros h. rewrite releases_app. cbn. lia.
      * rewrite close_failures_app. cbn. lia.
  - rewrite (pull_trigger_ok arg s Hl Hw). cbn [fst snd].
    cbn [lock kind _closed _fds r_open w_open trace].
    repeat split; try discriminate.
    + intros h. rewrite releases_app, releases_pull_log_of. lia.
    + rewrite close_failures_app, close_failures_pull_log_of. lia.
Qed.

(** The same for [handle_read]. *)
Lemma handle_read_frame (s : state) :
  lock s = false ->
  let s' := snd (handle_read s) in
  fst (handle_read s) <> Block /\
  lock s' = false /\
  kind s' = kind s /\ _closed s' = _closed s /\ _fds s' = _fds s /\
  r_open s' = r_open s /\ w_open s' = w_open s /\
  (forall h, releases h (trace s') = releases h (trace s)) /\
  close_failures (trace s') = close_failures (trace s).
Proof.
  intros Hl. cbn zeta.
  destruct (rd_fault s) as [e|] eqn:Hr.
  - rewrite (handle_read_fault s Hr). cbn.
    repeat split; try exact Hl.
    + destruct (is_socket_error e); discriminate.
    + intros h. rewrite releases_app. cbn. lia.
    + rewrite close_failures_app. cbn. lia.
  - rewrite (handle_read_ok s Hr Hl). cbn [fst snd].
    cbn [lock kind _closed _fds r_open w_open trace].
    repeat split; try discriminate.
    + intros h.
      change (releases h (trace s ++ [Recv (N.min 8192 (pending s)); Acquire]
                            ++ drain_log (thunks s) (world s)
                            ++ [Clear; Release])
              = releases h (trace s)).
      rewrite !releases_app, releases_drain_log. cbn. lia.
    + change (close_failures
                (trace s ++ [Recv (N.min 8192 (pending s)); Acquire]
                   ++ drain_log (thunks s) (world s) ++ [Clear; Release])
              = close_failures (trace s)).
      rewrite !close_failures_app, close_failures_drain_log. cbn. lia.
Qed.

(** X8.  Neither method leaves the lock held.  Started with the lock free,
    [pull_trigger] and [handle_read] come back with the lock free on every
    path: with or without a thunk, whether the write or the read raises or
    not, whatever the thunks raise.  Neither releases a handle. *)
Theorem lock_never_left_held (arg : option thunk) (s : state) :
  lock s = false ->
  (fst (pull_trigger arg s) <> Block /\
   lock (snd (pull_trigger arg s)) = false /\
   r_open (snd (pull_trigger arg s)) = r_open s /\
   w_open (snd (pull_trigger arg s)) = w_open s) /\
  (fst (handle_read s) <> Block /\
   lock (snd (handle_read s)) = false /\
   r_open (snd (handle_read s)) = r_open s /\
   w_open (snd (handle_read s)) = w_open s).
Proof.
  intros Hl.
  destruct (pull_trigger_frame arg s Hl) as (Hb & Hk & _ & _ & _ & Hro & Hwo & _).
  destruct (handle_read_frame s Hl) as (Hb' & Hk' & _ & _ & _ & Hro' & Hwo' & _).
  repeat split; assumption.
Qed.

(** ** Closing the pipe flavour, again and through [handle_close] *)

Lemma perform_closing (a : action) (s : state) :
  is_closing a = true -> perform a s = close s.
Proof. destruct a; try discriminate; reflexivity. Qed.

(** Once [_closed] is set, calls of [close] and [handle_close] change
    nothing, however many. *)
Lemma closing_calls_noop (acts : list action) (s : state) :
  kind s = Pipe -> _closed s = true ->
  Forall (fun a => is_closing a = true) acts ->
  play acts s = s.
Proof.
  intros Hk Hc Hacts. induction Hacts as [|a acts Ha _ IH]; [reflexivity|].
  unfold play. cbn [fold_left].
  rewrite (perform_closing a s Ha), (pipe_close_again s Hk Hc). exact IH.
Qed.

(** X1.  On a pipe trigger that is open, any number of calls of [close] and
    [handle_close], in any order, do what the first one does: it returns
    and releases the read end and the write end, once each; every call
    after it returns and changes nothing. *)
Theorem closing_calls_release_once (acts : list action) (s : state) :
  kind s = Pipe -> _closed s = false -> _fds s = [Rd; Wr] ->
  r_open s = true -> w_open s = true ->
  Forall (fun a => is_closing a = true) acts -> acts <> [] ->
  let s' := play acts s in
  fst (close s) = Ret tt /\
  s' = snd (close s) /\
  r_open s' = false /\ w_open s' = false /\
  releases Rd (since s s') = 1 /\ releases Wr (since s s') = 1 /\
  (forall a, is_closing a = true -> perform a s' = (Ret tt, s')).
Proof.
  intros Hk Hc Hf Hro Hwo Hacts Hne. cbn zeta.
  destruct Hacts as [|a acts Ha Hacts]; [contradiction|].
  assert (Hplay : play (a :: acts) s = snd (close s)).
  { unfold play. cbn [fold_left]. rewrite (perform_closing a s Ha).
    apply closing_calls_noop; [| |exact Hacts];
      rewrite (pipe_close_first s Hk Hc Hf Hro Hwo); reflexivity. }
  rewrite Hplay, (pipe_close_first s Hk Hc Hf Hro Hwo). cbn [fst snd].
  split; [reflexivity|]. split; [reflexivity|].
  split; [reflexivity|]. split; [reflexivity|].
  split;
[erewrite since_app by reflexivity; reflexivity|].
  split;
[erewrite since_app by reflexivity; reflexivity|].
  intros b Hb. rewrite (perform_closing b _ Hb).
  apply pipe_close_again; reflexivity.
Qed.

(** X2.  [close] sets [_closed] before it releases anything.  So when the
    release of the first descriptor raises, the [OSError] leaves [close]
    with the second descriptor still allocated and [_fds] not emptied, and
    a second [close] returns without trying again. *)
Theorem failed_close_is_not_retried (s : state) :
  kind s = Pipe -> _closed s = false -> _fds s = [Rd; Wr] ->
  r_open s = false ->
  let s1 := snd (close s) in
  fst (close s) = Raise OSError /\
  _closed s1 = true /\
  _fds s1 = [Rd; Wr] /\
  w_open s1 = w_open s /\
  releases Wr (since s s1) = 0 /\
  close s1 = (Ret tt, s1).
Proof.
  intros Hk Hc Hf Hro. cbn zeta.
  assert (Hclose : close s =
    (Raise OSError,
     State Pipe (lock s) (thunks s) true [Rd; Wr] false (w_open s) (pending s)
           (rd_fault s) (wr_fault s) (world s)
           (trace s ++ [DelChannel; CloseFailed Rd]))).
  { unfold close, pipe_close. rewrite Hk, Hc. cbn [negb].
    unfold bind, del_channel. cbn. rewrite Hf. cbn.
    unfold os_close, bind. cbn. rewrite Hro. cbn.
    rewrite ?Hk, ?Hf. repeat (rewrite <- app_assoc; cbn [app]). reflexivity. }
  rewrite Hclose. cbn [fst snd].
  split; [reflexivity|]. split; [reflexivity|]. split; [reflexivity|].
  split; [reflexivity|]. split.
  - erewrite since_app by reflexivity. reflexivity.
  - apply pipe_close_again; reflexivity.
Qed.

(** ** Any sequence of calls on a pipe trigger *)

(** Each action keeps [pipe_inv]; none waits for the lock; a closing
    action returns. *)
Lemma pipe_inv_perform (a : action) (s : state) :
  pipe_inv s ->
  pipe_inv (snd (perform a s)) /\
  fst (perform a s) <> Block /\
  (is_closing a = true ->
   fst (perform a s) = Ret tt /\ _closed (snd (perform a s)) = true).
Proof.
  intros (Hk & Hl & Hcf & Hinv).
  assert (Hframe : forall m : M World unit,
    (let s' := snd (m s) in
     fst (m s) <> Block /\ lock s' = false /\
     kind s' = kind s /\ _closed s' = _closed s /\ _fds s' = _fds s /\
     r_open s' = r_open s /\ w_open s' = w_open s /\
     (forall h, releases h (trace s') = releases h (trace s)) /\
     close_failures (trace s') = close_failures (trace s)) ->
    pipe_inv (snd (m s)) /\ fst (m s) <> Block).
  { intros m (Hb & Hl' & Hk' & Hc' & Hf' & Hro' & Hwo' & Hrel & Hcf').
    split; [|exact Hb]. unfold pipe_inv.
    rewrite Hk', Hl', Hcf', Hc', Hf', Hro', Hwo', !Hrel.
    repeat split; assumption. }
  assert (Hclosing :
    pipe_inv (snd (close s)) /\ fst (close s) <> Block /\
    (true = true -> fst (close s) = Ret tt /\ _closed (snd (close s)) = true)).
  { destruct (_closed s) eqn:Hc.
    - rewrite (pipe_close_again s Hk Hc). cbn [fst snd].
      split; [|split; [discriminate|intros _; split; [reflexivity|exact Hc]]].
      unfold pipe_inv. rewrite Hc. auto.
    - destruct Hinv as (Hf & Hro & Hwo & Hr & Hw).
      rewrite (pipe_close_first s Hk Hc Hf Hro Hwo). cbn [fst snd].
      split; [|split; [discriminate|intros _; split; reflexivity]].
      unfold pipe_inv.
      cbn [kind lock trace _closed _fds r_open w_open].
      rewrite !releases_app, close_failures_app, Hr, Hw, Hcf.
      repeat split; exact Hl. }
  destruct a as [arg| | | |f|f]; cbn [perform is_closing].
  - destruct (Hframe (pull_trigger arg) (pull_trigger_frame arg s Hl)) as (Hi & Hb).
    split; [exact Hi|]. split; [exact Hb|]. intros H; discriminate H.
  - destruct (Hframe handle_read (handle_read_frame s Hl)) as (Hi & Hb).
    split; [exact Hi|]. split; [exact Hb|]. intros H; discriminate H.
  - exact Hclosing.
  - exact Hclosing.
  - cbn [fst snd].
    split; [|split; [discriminate|intros H; discriminate H]].
    unfold pipe_inv. cbn. auto.
  - cbn [fst snd].
    split; [|split; [discriminate|intros H; discriminate H]].
    unfold pipe_inv. cbn. auto.
Qed.

Lemma pipe_inv_play (acts : list action) (s : state) :
  pipe_inv s -> pipe_inv (play acts s).
Proof.
  revert s. induction acts as [|a acts IH]; intros s Hs; [exact Hs|].
  unfold play. cbn [fold_left]. apply IH.
  apply (@pipe_inv_perform a s Hs).
Qed.

Lemma pipe_inv_pipe_init (w0 : World) : pipe_inv (pipe_init w0).
Proof. unfold pipe_inv. cbn. repeat split. Qed.

(** X9.  Whatever is done to a pipe trigger from its construction on
    (pulls with or without thunks, drains, calls of [close] and
    [handle_close], in any order and number, while reads and writes of the
    channel start and stop failing), no descriptor is released twice and
    no [os.close] raises; the descriptors are allocated exactly as long as
    [_closed] is unset; the lock is free between calls, so the next call
    never waits for it; and a call of [close] or [handle_close] returns. *)
Theorem pipe_trigger_releases_at_most_once (w0 : World)
    (acts : list action) (a : action) :
  let s := play acts (pipe_init w0) in
  (forall h, releases h (trace s) <= 1) /\
  close_failures (trace s) = 0 /\
  r_open s = negb (_closed s) /\ w_open s = negb (_closed s) /\
  lock s = false /\
  fst (perform a s) <> Block /\
  (is_closing a = true ->
   fst (perform a s) = Ret tt /\ _closed (snd (perform a s)) = true).
Proof.
  cbn zeta.
  pose proof (pipe_inv_play acts (pipe_inv_pipe_init w0)) as Hinv.
  destruct (@pipe_inv_perform a _ Hinv) as (_ & Hb & Hclose).
  destruct Hinv as (Hk & Hl & Hcf & Hinv).
  destruct (_closed (play acts (pipe_init w0)));
    destruct Hinv as (Hf & Hro & Hwo & Hr & Hw);
    (repeat split; try assumption; try (apply Hclose; assumption));
    intros [|]; lia.
Qed.

(** ** The bind loop: order of the ports and the class attribute *)

Lemma port_of_round_next (po : Z) (j : nat) :
  port_of_round ((po + 1) mod NPORTS) j = port_of_round po (S j).
Proof.
  unfold port_of_round. rewrite next_offset. do 2 f_equal. lia.
Qed.

(** The loop in closed form: it runs [k] rounds, at most one per element
    of its range; it tries the ports of rounds 1 to [k] in this order; and
    it leaves [portoffset] at the offset of round [k]. *)
Lemma bind_loop_rounds (iters : list Z) (po : Z) :
  let po' := fst (fst (bind_loop taken iters po)) in
  let tried := snd (fst (bind_loop taken iters po)) in
  let k := length tried in
  tried = map (port_of_round po) (seq 1 k) /\
  k <= length iters /\
  (snd (bind_loop taken iters po) = None -> k = length iters) /\
  (iters = [] -> po' = po) /\
  (iters <> [] -> 1 <= k /\ po' = ((po + Z.of_nat k) mod NPORTS)%Z).
Proof.
  revert po. induction iters as [|i rest IH]; intros po; cbn zeta.
  - cbn. split; [reflexivity|]. split; [lia|]. split; [reflexivity|].
    split; [reflexivity|]. intros Hne. contradiction.
  - cbn [bind_loop].
    destruct (taken (MINPORT + (po + 1) mod NPORTS)%Z) eqn:Ht.
    + specialize (IH ((po + 1) mod NPORTS)%Z). cbn zeta in IH.
      destruct (bind_loop taken rest ((po + 1) mod NPORTS)%Z) as [[po' tr] r].
      cbn [fst snd length] in *.
      destruct IH as (Htr & Hk & Hnone & Hnil & Hcons).
      split; [|split; [|split; [|split]]].
      * transitivity (port_of_round po 1
                        :: map (port_of_round po) (seq 2 (length tr)));
          [|reflexivity].
        f_equal. etransitivity; [exact Htr|].
        rewrite <- (seq_shift (length tr) 1), map_map.
        apply map_ext. intros j. apply port_of_round_next.
      * lia.
      * intros Hr. rewrite (Hnone Hr). reflexivity.
      * discriminate.
      * intros _. split; [lia|].
        destruct rest as [|i' rest'].
        -- rewrite (Hnil eq_refl).
           assert (Hz : length tr = 0) by (cbn in Hk; lia).
           rewrite Hz. reflexivity.
        -- destruct (Hcons ltac:(discriminate)) as (_ & ->).
           rewrite next_offset. f_equal. lia.
    + cbn [fst snd length seq map].
      split; [|split; [|split; [|split]]].
      * reflexivity.
      * lia.
      * discriminate.
      * discriminate.
      * intros _. split; [lia|reflexivity].
Qed.

Lemma NoDup_map_in {A B : Type} (f : A -> B) (l : list A) :
  (forall x y, In x l -> In y l -> f x = f y -> x = y) ->
  NoDup l -> NoDup (map f l).
Proof.
  intros Hinj Hnd. induction Hnd as [|x l Hx Hnd IH]; [constructor|].
  cbn. constructor.
  - intros Hin. apply in_map_iff in Hin. destruct Hin as (y & Hfy & Hy).
    assert (x = y) by (apply Hinj; [left; reflexivity|right; exact Hy|congruence]).
    subst y. contradiction.
  - apply IH. intros a b Ha Hb. apply Hinj; right; assumption.
Qed.

(** Within fifty rounds no offset comes twice. *)
Lemma port_of_round_inj (po : Z) (i j : nat) :
  1 <= i <= 50 -> 1 <= j <= 50 ->
  port_of_round po i = port_of_round po j -> i = j.
Proof.
  unfold port_of_round, NPORTS. intros Hi Hj H.
  assert (Hm : ((po + Z.of_nat i) mod 50 = (po + Z.of_nat j) mod 50)%Z) by lia.
  clear H. revert Hm. Z.div_mod_to_equations. lia.
Qed.

(** X11.  One construction tries the candidate ports in cyclic order,
    starting with the one after [portoffset]; it tries at most [NPORTS]
    of them and none of them twice. *)
Theorem no_port_is_tried_twice (po : Z) (w : World) :
  let tried := snd (fst (loopback_init taken po w)) in
  tried = map (port_of_round po) (seq 1 (length tried)) /\
  1 <= length tried <= 50 /\
  NoDup tried.
Proof.
  cbn zeta. unfold loopback_init.
  pose proof (bind_loop_rounds (range NPORTS) po) as H. cbn zeta in H.
  destruct (bind_loop taken (range NPORTS) po) as [[po' tr] r].
  cbn [fst snd] in H.
  destruct H as (Htr & Hk & _ & _ & Hcons).
  destruct (Hcons ltac:(discriminate)) as (H1 & _).
  change (length (range NPORTS)) with 50 in Hk.
  assert (Hgoal : tr = map (port_of_round po) (seq 1 (length tr)) /\
                  1 <= length tr <= 50 /\ NoDup tr).
  { split; [exact Htr|]. split; [lia|].
    rewrite Htr. apply NoDup_map_in; [|apply seq_NoDup].
    intros i j Hi Hj. apply in_seq in Hi, Hj.
    apply port_of_round_inj; lia. }
  destruct r; exact Hgoal.
Qed.

(** X10.  Whatever value the class attribute [portoffset] has, a
    construction leaves it below [NPORTS] and not negative.  A
    construction that fails has gone once around and leaves it where it
    was, reduced modulo [NPORTS]; one that succeeds leaves it at the
    offset of the port it bound, the last one tried. *)
Theorem portoffset_stays_in_range (po : Z) (w : World) :
  let res := loopback_init taken po w in
  let po' := fst (fst res) in
  let tried := snd (fst res) in
  (0 <= po' < NPORTS)%Z /\
  (snd res = inl RuntimeError -> po' = (po mod NPORTS)%Z) /\
  (forall s, snd res = inr s ->
     last tried 0%Z = (MINPORT + po')%Z /\ taken (MINPORT + po')%Z = false).
Proof.
  cbn zeta. unfold loopback_init.
  pose proof (bind_loop_rounds (range NPORTS) po) as H. cbn zeta in H.
  pose proof (bind_loop_some (range NPORTS) po) as Hsome.
  destruct (bind_loop taken (range NPORTS) po) as [[po' tr] r].
  cbn [fst snd] in H, Hsome.
  destruct H as (_ & _ & Hnone & _ & Hcons).
  destruct (Hcons ltac:(discriminate)) as (_ & Hpo).
  assert (Hrange : (0 <= po' < NPORTS)%Z).
  { rewrite Hpo. apply Z.mod_pos_bound. unfold NPORTS. lia. }
  destruct r as [p|]; cbn [fst snd].
  - split; [exact Hrange|]. split; [discriminate|].
    intros s _. destruct (Hsome p eq_refl) as (Hfree & Hp & before & Htr & _).
    subst p. split; [|exact Hfree].
    rewrite Htr. apply last_last.
  - split; [exact Hrange|]. split; [|discriminate].
    intros _. rewrite Hpo, (Hnone eq_refl).
    change (Z.of_nat (length (range NPORTS))) with NPORTS.
    rewrite <- Z.add_mod_idemp_r by (unfold NPORTS; lia).
    rewrite Z.mod_same by (unfold NPORTS; lia).
    rewrite Z.add_0_r. reflexivity.
Qed.

(** X12.  The class attribute makes the next construction start one port
    further: after a construction that bound port [p], the first port the
    next construction tries is the cyclic successor of [p] among the
    candidates, and so is not [p], whichever ports are taken by then. *)
Theorem next_construction_starts_after (taken' : Z -> bool) (po : Z)
    (w w' : World) (s : state) :
  snd (loopback_init taken po w) = inr s ->
  let po1 := fst (fst (loopback_init taken po w)) in
  let p := last (snd (fst (loopback_init taken po w))) 0%Z in
  let q := (MINPORT + (po1 + 1) mod NPORTS)%Z in
  hd_error (snd (fst (loopback_init taken' po1 w'))) = Some q /\
  q = (MINPORT + (p - MINPORT + 1) mod NPORTS)%Z /\
  q <> p.
Proof.
  intros Hs. cbn zeta.
  destruct (portoffset_stays_in_range po w) as (Hrange & _ & Hlast).
  destruct (Hlast s Hs) as (Hp & _). rewrite Hp.
  set (po1 := fst (fst (loopback_init taken po w))) in *.
  split; [|split].
  - unfold loopback_init.
    change (range NPORTS) with (0%Z :: tl (range NPORTS)).
    cbn [bind_loop].
    destruct (taken' (MINPORT + (po1 + 1) mod NPORTS)%Z).
    + destruct (bind_loop taken' (tl (range NPORTS)) ((po1 + 1) mod NPORTS)%Z)
        as [[po2 tr] r].
      destruct r; reflexivity.
    + reflexivity.
  - do 3 f_equal. lia.
  - unfold NPORTS in *. revert Hrange. Z.div_mod_to_equations. lia.
Qed.

(** ** No thunk is lost, none is run twice *)

Lemma appended_app (a b : list event) :
  appended (a ++ b) = appended a ++ appended b.
Proof.
  induction a as [|e a IH]; [reflexivity|].
  destruct e; cbn; rewrite IH; reflexivity.
Qed.

Lemma appended_drain_log (ts : list thunk) (w : World) :
  appended (drain_log ts w) = [].
Proof.
  revert w. induction ts as [|t ts IH]; intros w; [reflexivity|].
  cbn. destruct (snd (call t w)); cbn; apply IH.
Qed.

Lemma same_queue_refl (s : state) : same_queue s s.
Proof. repeat split. Qed.

Lemma same_queue_trans (s1 s2 s3 : state) :
  same_queue s1 s2 -> same_queue s2 s3 -> same_queue s1 s3.
Proof.
  intros (H1 & H2 & H3 & H4) (H1' & H2' & H3' & H4').
  repeat split; congruence.
Qed.

Lemma same_queue_log (s s' : state) (evs : list event) :
  lock s' = lock s -> thunks s' = thunks s ->
  trace s' = trace s ++ evs -> appended evs = [] -> invoked evs = [] ->
  same_queue s s'.
Proof.
  intros Hl Hq Ht Ha Hi. repeat split; try assumption;
    rewrite Ht, ?appended_app, ?invoked_app, ?Ha, ?Hi; apply app_nil_r.
Qed.

Lemma quiet_bind {A B : Type} (m : M World A) (k : A -> M World B) :
  quiet m -> (forall a, quiet (k a)) -> quiet (bind m k).
Proof.
  intros Hm Hk s. unfold bind. destruct (Hm s) as (Hb & Hq).
  destruct (m s) as [[a|e|] s1]; cbn [fst snd] in *.
  - destruct (Hk a s1) as (Hb' & Hq'). split; [exact Hb'|].
    eapply same_queue_trans; eassumption.
  - split; [discriminate|exact Hq].
  - contradiction.
Qed.

Lemma quiet_for_each {A : Type} (l : list A) (body : A -> M World unit) :
  (forall x, quiet (body x)) -> quiet (for_each l body).
Proof.
  intros Hbody. induction l as [|x l IH]; cbn [for_each].
  - intros s. cbn. split; [discriminate|apply same_queue_refl].
  - apply quiet_bind; [apply Hbody|intros _; exact IH].
Qed.

Lemma quiet_os_close (h : handle) : quiet (@os_close World h).
Proof.
  intros s. unfold os_close. destruct (is_open h s); cbn [fst snd];
    (split; [discriminate|]).
  - apply same_queue_log with (evs := [CloseHandle h]);
      destruct h; reflexivity.
  - apply same_queue_log with (evs := [CloseFailed h]); reflexivity.
Qed.

Lemma quiet_socket_close (h : handle) : quiet (@socket_close World h).
Proof.
  intros s. unfold socket_close. destruct (is_open h s); cbn [fst snd];
    (split; [discriminate|]).
  - apply same_queue_log with (evs := [CloseHandle h]);
      destruct h; reflexivity.
  - apply same_queue_refl.
Qed.

Lemma quiet_del_channel : quiet (@del_channel World).
Proof.
  intros s. unfold del_channel. cbn [fst snd]. split; [discriminate|].
  apply same_queue_log with (evs := [DelChannel]); reflexivity.
Qed.

(** [close], of either flavour and in any state, leaves lock and queue
    alone and does not wait, also when a release raises. *)
Lemma close_quiet (s : state) :
  fst (close s) <> Block /\ same_queue s (snd (close s)).
Proof.
  unfold close. destruct (kind s).
  - unfold pipe_close. destruct (_closed s); cbn [negb].
    + cbn. split; [discriminate|apply same_queue_refl].
    + revert s. apply quiet_bind.
      * intros s. cbn [fst snd]. split; [discriminate|]. repeat split.
      * intros _. apply quiet_bind; [apply quiet_del_channel|].
        intros _. apply quiet_bind.
        -- intros s. apply quiet_for_each. apply quiet_os_close.
        -- intros _ s. cbn [fst snd]. split; [discriminate|]. repeat split.
  - revert s. unfold dispatcher_close.
    apply quiet_bind; [apply quiet_del_channel|].
    intros _. apply quiet_socket_close.
Qed.

(** Each action, started with the lock free, leaves the lock free and
    keeps the account of the thunks. *)
Lemma accounted_perform (a : action) (s : state) :
  lock s = false -> accounted s ->
  lock (snd (perform a s)) = false /\ accounted (snd (perform a s)).
Proof.
  unfold accounted. intros Hl Hacc.
  destruct a as [arg| | | |f|f]; cbn [perform].
  - destruct (wr_fault s) as [e|] eqn:Hw.
    + destruct (truthy arg) eqn:Ht.
      * destruct arg as [t|]; [|discriminate]. cbn in Ht.
        rewrite (pull_trigger_write_fails t s Ht Hl Hw).
        cbn [snd lock thunks trace]. split; [reflexivity|].
        rewrite appended_app, invoked_app, Hacc. cbn.
        rewrite app_nil_r, app_assoc. reflexivity.
      * rewrite (pull_trigger_falsy arg s Ht). unfold write_x. rewrite Hw.
        cbn. split; [exact Hl|].
        rewrite appended_app, invoked_app, Hacc. cbn.
        rewrite !app_nil_r. reflexivity.
    + rewrite (pull_trigger_ok arg s Hl Hw).
      cbn [snd lock thunks trace]. split; [reflexivity|].
      rewrite appended_app, invoked_app, Hacc.
      destruct arg as [t|]; cbn; [destruct (truth t); cbn|];
        rewrite ?app_nil_r, ?app_assoc; reflexivity.
  - destruct (rd_fault s) as [e|] eqn:Hr.
    + rewrite (handle_read_fault s Hr). cbn. split; [exact Hl|].
      rewrite appended_app, invoked_app, Hacc. cbn.
      rewrite !app_nil_r. reflexivity.
    + rewrite (handle_read_ok s Hr Hl).
      cbn [snd lock thunks trace]. split; [reflexivity|].
      change (appended (trace s ++ [Recv (N.min 8192 (pending s)); Acquire]
                          ++ drain_log (thunks s) (world s)
                          ++ [Clear; Release])
              = invoked (trace s ++ [Recv (N.min 8192 (pending s)); Acquire]
                           ++ drain_log (thunks s) (world s)
                           ++ [Clear; Release]) ++ []).
      rewrite !appended_app, !invoked_app, appended_drain_log,
        invoked_drain_log, Hacc.
      cbn. rewrite !app_nil_r. reflexivity.
  - destruct (close_quiet s) as (_ & Hl' & Hq & Ha & Hi).
    rewrite Hl', Hq, Ha, Hi. split; assumption.
  - unfold handle_close.
    destruct (close_quiet s) as (_ & Hl' & Hq & Ha & Hi).
    rewrite Hl', Hq, Ha, Hi. split; assumption.
  - cbn. split; assumption.
  - cbn. split; assumption.
Qed.

(** X13.  Across any sequence of pulls, drains and closing calls on a
    trigger of either flavour, with reads and writes failing or not, no
    thunk is lost and none is run twice: at every moment the thunks
    appended so far are, in the order of the appends, the ones entered so
    far followed by the ones still in the queue. *)
Theorem thunks_are_accounted_for (acts : list action) (s : state) :
  lock s = false -> accounted s ->
  lock (play acts s) = false /\
  appended (trace (play acts s))
  = invoked (trace (play acts s)) ++ thunks (play acts s).
Proof.
  revert s. induction acts as [|a acts IH]; intros s Hl Hacc.
  - split; assumption.
  - unfold play. cbn [fold_left].
    destruct (@accounted_perform a s Hl Hacc) as (Hl' & Hacc').
    exact (IH _ Hl' Hacc').
Qed.

End Properties.

(** * Runs on the sample thunks *)

Import Sample.

(** C1 at five pulls of [counter += 1] on a fresh trigger: the counter is
    5 and the queue is empty after one [handle_read]. *)
Lemma pulled_thunks_run_once_in_order_witness :
  (Forall (fun t : thunk nat => truth t = true) five /\
   lock fresh = false /\ rd_fault fresh = None /\ wr_fault fresh = None) /\
  invoked (since (after (pull_all five) fresh)
                 (after handle_read (after (pull_all five) fresh))) = five /\
  world (after handle_read (after (pull_all five) fresh)) = 5 /\
  thunks (after handle_read (after (pull_all five) fresh)) = [].
Proof.
  assert (Hts : Forall (fun t : thunk nat => truth t = true) five)
    by (repeat constructor).
  split; [repeat split; exact Hts|].
  destruct (pulled_thunks_run_once_in_order fresh Hts eq_refl eq_refl eq_refl)
    as (_ & _ & Hi & Hw & Hq).
  exact (conj Hi (conj Hw Hq)).
Defined.



(** C3 at a fresh loopback trigger: closed twice, its write end is still
    open and was never released. *)
Lemma loopback_close_leaves_write_end_witness :
  kind fresh_loopback = Loopback /\
  r_open (after close (after close fresh_loopback)) = false /\
  w_open (after close (after close fresh_loopback)) = true /\
  releases Wr (since fresh_loopback (after close (after close fresh_loopback)))
    = 0.
Proof.
  split; [reflexivity|].
  destruct (loopback_close_leaves_write_end fresh_loopback eq_refl)
    as (_ & _ & Hr & _ & Hw & Hn).
  exact (conj Hr (conj Hw Hn)).
Defined.

(** The pipe flavour at a fresh trigger, for comparison: both ends released,
    once each, and the second [close] changes nothing. *)
Example pipe_close_twice_fresh :
  fst (close (after close fresh)) = Ret tt /\
  after close (after close fresh) = after close fresh /\
  w_open (after close fresh) = false /\
  releases Rd (trace (after close (after close fresh))) = 1 /\
  releases Wr (trace (after close (after close fresh))) = 1.
Proof. repeat split. Qed.

Lemma thunk_errors_are_reported_witness :
  (lock loaded = false /\ rd_fault loaded = None) /\
  fst (handle_read loaded) = Ret tt /\
  invoked (since loaded (after handle_read loaded)) = [bump; boom; bump] /\
  reported (since loaded (after handle_read loaded)) = [AppError 7].
Proof.
  split; [split; reflexivity|].
  destruct (thunk_errors_are_reported loaded eq_refl eq_refl)
    as (Hret & Hi & Hrep & _).
  exact (conj Hret (conj Hi Hrep)).
Defined.

(** C5 as stated fails at a callable that is false in [if thunk:]: it is
    provided, and it is not appended. *)
Lemma falsy_thunk_not_appended :
  thunks (after (pull_trigger (Some hollow)) fresh) <> thunks fresh ++ [hollow].
Proof. intros H. vm_compute in H. discriminate H. Qed.

Lemma pull_appends_then_writes_witness :
  (truth bump = true /\ lock fresh = false /\ wr_fault fresh = None) /\
  since fresh (after (pull_trigger (Some bump)) fresh)
    = [Acquire; Append bump; Release; Wrote 1] /\
  thunks (after (pull_trigger (Some bump)) fresh) = [bump] /\
  pending (after (pull_trigger (Some bump)) fresh) = 1%N.
Proof.
  split; [repeat split|].
  destruct (pull_appends_then_writes fresh bump eq_refl eq_refl eq_refl)
    as (_ & Hs & Hq & Hp & _).
  exact (conj Hs (conj Hq Hp)).
Defined.

(** C6 as stated fails after 8193 pulls: one [handle_read] leaves a byte in
    the channel. *)
Lemma one_read_leaves_a_byte :
  pending flooded = 8193%N /\
  pending (after handle_read flooded) <> 0%N.
Proof.
  split; [vm_compute; reflexivity|].
  intros H. vm_compute in H. discriminate H.
Qed.

Lemma handle_read_reads_at_most_8192_witness :
  rd_fault loaded = None /\
  filter is_io (since loaded (after handle_read loaded)) = [Recv 3] /\
  pending (after handle_read loaded) = 0%N.
Proof.
  split; [reflexivity|].
  destruct (handle_read_reads_at_most_8192 loaded eq_refl) as (Hio & Hp & _).
  exact (conj Hio Hp).
Defined.



Lemma pull_without_thunk_witness :
  (wr_fault fresh = None /\ rd_fault fresh = None /\ lock fresh = false) /\
  thunks (after (pull_trigger None) fresh) = [] /\
  pending (after (pull_trigger None) fresh) = 1%N /\
  length (thunks (after handle_read (after (pull_trigger None) fresh))) = 0.
Proof.
  split; [repeat split|].
  destruct (pull_without_thunk fresh eq_refl eq_refl eq_refl)
    as (_ & _ & Hq & Hp & _ & _ & Hlen).
  exact (conj Hq (conj Hp Hlen)).
Defined.

Lemma pull_tests_truth_not_presence_witness :
  (truth hollow = false /\ wr_fault fresh = None) /\
  thunks (after (pull_trigger (Some hollow)) fresh) = [] /\
  since fresh (after (pull_trigger (Some hollow)) fresh) = [Wrote 1].
Proof.
  split; [split; reflexivity|].
  destruct (pull_tests_truth_not_presence fresh hollow eq_refl eq_refl)
    as (_ & Hq & Hs & _).
  exact (conj Hq Hs).
Defined.

(** The bind loop on three small cases: all ports free; the first ten and
    the last four taken, with [portoffset] near the end of the range, so
    that the loop wraps around; all taken. *)
Example bind_first_port_free :
  fst (loopback_init (fun _ => false) 0 0) = (1%Z, [19951%Z]).
Proof. reflexivity. Qed.

Example bind_skips_taken_ports :
  fst (loopback_init (fun p => (p <? 19960)%Z || (19996 <=? p)%Z) 45 0)
  = (10%Z, [19996; 19997; 19998; 19999; 19950; 19951; 19952; 19953; 19954;
            19955; 19956; 19957; 19958; 19959; 19960]%Z).
Proof. reflexivity. Qed.

Example bind_all_taken :
  snd (loopback_init (fun _ => true) 7 0) = inl RuntimeError /\
  length (snd (fst (loopback_init (fun _ => true) 7 0))) = 50.
Proof. split; reflexivity. Qed.

(** ** Runs for the further properties *)

Lemma closing_calls_release_once_witness :
  (kind fresh = Pipe /\ _closed fresh = false /\ _fds fresh = [Rd; Wr] /\
   r_open fresh = true /\ w_open fresh = true /\
   Forall (fun a => is_closing a = true) closings /\ closings <> []) /\
  play closings fresh = after close fresh /\
  releases Rd (since fresh (play closings fresh)) = 1 /\
  releases Wr (since fresh (play closings fresh)) = 1.
Proof.
  assert (Hall : Forall (fun a : action nat => is_closing a = true) closings)
    by (repeat constructor).
  assert (Hne : closings <> []) by discriminate.
  split; [repeat split; assumption|].
  destruct (@closing_calls_release_once nat closings fresh
              eq_refl eq_refl eq_refl eq_refl eq_refl Hall Hne)
    as (_ & Hs & _ & _ & Hr & Hw & _).
  exact (conj Hs (conj Hr Hw)).
Defined.

Lemma failed_close_is_not_retried_witness :
  (kind half_gone = Pipe /\ _closed half_gone = false /\
   _fds half_gone = [Rd; Wr] /\ r_open half_gone = false) /\
  fst (close half_gone) = Raise OSError /\
  w_open (after close half_gone) = true /\
  close (after close half_gone) = (Ret tt, after close half_gone).
Proof.
  split; [repeat split|].
  destruct (@failed_close_is_not_retried nat half_gone
              eq_refl eq_refl eq_refl eq_refl)
    as (Hraise & _ & _ & Hw & _ & Hagain).
  exact (conj Hraise (conj Hw Hagain)).
Defined.

Lemma failed_write_keeps_the_thunk_witness :
  (truth bump = true /\ lock jammed = false /\
   wr_fault jammed = Some OSError /\ rd_fault jammed = None) /\
  fst (pull_trigger (Some bump) jammed) = Raise OSError /\
  thunks (after (pull_trigger (Some bump)) jammed) = [bump] /\
  invoked (since (after (pull_trigger (Some bump)) jammed)
                 (after handle_read (after (pull_trigger (Some bump)) jammed)))
    = [bump].
Proof.
  split; [repeat split|].
  destruct (@failed_write_keeps_the_thunk nat bump jammed OSError
              eq_refl eq_refl eq_refl eq_refl)
    as (Hraise & Hq & _ & _ & _ & Hi).
  exact (conj Hraise (conj Hq Hi)).
Defined.

Lemma failed_read_loses_no_work_witness :
  (rd_fault torn_loaded = Some OSError /\ lock torn_loaded = false) /\
  fst (handle_read torn_loaded) = Raise OSError /\
  thunks (after handle_read torn_loaded) = [bump; boom; bump] /\
  invoked
    (since (set_rd_fault None (after handle_read torn_loaded))
           (after handle_read (set_rd_fault None (after handle_read torn_loaded))))
    = [bump; boom; bump].
Proof.
  split; [split; reflexivity|].
  destruct (@failed_read_loses_no_work nat torn_loaded OSError eq_refl eq_refl)
    as (Hraise & _ & Hq & _ & _ & _ & _ & Hi & _).
  exact (conj Hraise (conj Hq Hi)).
Defined.


Lemma pulls_queue_the_truthy_arguments_witness :
  (lock fresh = false /\ rd_fault fresh = None /\ wr_fault fresh = None) /\
  thunks (after (pull_each mixed) fresh) = [bump; boom] /\
  invoked (since (after (pull_each mixed) fresh)
                 (after handle_read (after (pull_each mixed) fresh)))
    = [bump; boom].
Proof.
  split; [repeat split|].
  destruct (@pulls_queue_the_truthy_arguments nat mixed fresh
              eq_refl eq_refl eq_refl)
    as (_ & Hq & _ & _ & Hi & _).
  exact (conj Hq Hi).
Defined.

Lemma pulls_coalesce_into_one_read_witness :
  (lock fresh = false /\ rd_fault fresh = None /\ wr_fault fresh = None /\
   (pending fresh + N.of_nat (length mixed) <= 8192)%N) /\
  pending (after (pull_each mixed) fresh) = 4%N /\
  filter is_io (since (after (pull_each mixed) fresh)
                      (after handle_read (after (pull_each mixed) fresh)))
    = [Recv 4] /\
  pending (after handle_read (after (pull_each mixed) fresh)) = 0%N.
Proof.
  assert (Hle : (pending fresh + N.of_nat (length mixed) <= 8192)%N)
    by (intros H; discriminate H).
  split; [repeat split; exact Hle|].
  exact (@pulls_coalesce_into_one_read nat mixed fresh
           eq_refl eq_refl eq_refl Hle).
Defined.

Lemma lock_never_left_held_witness :
  lock jammed = false /\
  lock (after (pull_trigger (Some bump)) jammed) = false /\
  lock (after handle_read jammed) = false.
Proof.
  split; [reflexivity|].
  destruct (@lock_never_left_held nat (Some bump) jammed eq_refl)
    as ((_ & Hp & _) & (_ & Hh & _)).
  exact (conj Hp Hh).
Defined.

Lemma next_construction_starts_after_witness :
  snd (loopback_init (fun _ => false) 0 0) = inr fresh_loopback /\
  hd_error (snd (fst (loopback_init (fun _ => true) 1 0))) = Some 19952%Z /\
  19952%Z <> 19951%Z.
Proof.
  split; [reflexivity|].
  destruct (@next_construction_starts_after nat (fun _ => false)
              (fun _ => true) 0 0 0 fresh_loopback eq_refl)
    as (Hhd & _ & Hne).
  exact (conj Hhd Hne).
Defined.

Lemma thunks_are_accounted_for_witness :
  (lock fresh_loopback = false /\ accounted fresh_loopback) /\
  (lock (play busy fresh_loopback) = false /\
   appended (trace (play busy fresh_loopback))
   = invoked (trace (play busy fresh_loopback))
       ++ thunks (play busy fresh_loopback)) /\
  invoked (trace (play busy fresh_loopback)) = [bump; boom; bump; bump].
Proof.
  split; [split; reflexivity|].
  split; [|reflexivity].
  exact (@thunks_are_accounted_for nat busy fresh_loopback eq_refl eq_refl).
Defined.
